(** * jointcal: the spatial index (FastFinder) and the fitter core (FitterBase)

    A shallow embedding of [src/FastFinder.cc], [src/FitterBase.cc] and of the
    [MatchConditions] structure of [include/lsst/jointcal/ListMatch.h].

    Conventions of the embedding.
    - A C++ [double] is a rational number ([Q]); comparisons and arithmetic
      are exact.
    - An [unsigned] that counts or indexes the elements of a container is a
      [nat] (the containers hold fewer than 2^32 elements); the [unsigned]
      counters that [minimize] and [findOutliers] add up are integers modulo
      2^32; an [int] is a [Z], and where the source converts a double or an
      [unsigned] to [int], or adds to such a value, the result is reduced to
      32 bits ([trunc], [to_int]); the other [int]s of the spatial index (the
      slice numbers from -1 to [nslice], the spans of the two searches) fit
      in 32 bits when there are fewer than 2^31 stars; a [std::vector]
      iterator is its offset (a [Z]) from [begin()], so that [stars.end()]
      is the offset [count].
    - A [std::shared_ptr] to a star is the star itself in the spatial index
      (which never mutates stars) and the position of the star in a store in
      the fitter (which does).
    - A loop whose number of turns is not the length of a list runs on a
      fuel, and the properties below show that the fuel given is enough.
    - Of the log only the messages at the WARN and ERROR levels are kept. *)

From Stdlib Require Import ZArith QArith Lia Lqa String Ascii.
From stdpp Require Import base list sorting.

Local Open Scope Z_scope.

(** ** Doubles as rationals, 32-bit integers *)

Definition Qlt_bool (a b : Q) : bool := negb (Qle_bool b a).

(** The 32-bit [int] that holds [z] modulo 2^32 (two's complement):
    [int(u)] for an [unsigned] [u], and the result of an addition of
    [int]s. *)
Definition to_int (z : Z) : Z := (z + 2 ^ 31) mod 2 ^ 32 - 2 ^ 31.

(** [int(d)]: the conversion of a double to a 32-bit [int] drops the
    fractional part.  When what is left does not fit in an [int] the
    language leaves the result open; the conversion instruction of x86-64
    (cvttsd2si) then gives [INT_MIN], and so does the model. *)
Definition trunc (q : Q) : Z :=
  let z := Z.quot (Qnum q) (Zpos (Qden q)) in
  if (- 2 ^ 31 <=? z) && (z <? 2 ^ 31) then z else - 2 ^ 31.

(** ** Points and stars *)

Record Point := mkPoint { x : Q; y : Q }.

(** [BaseStar] derives from [Point]. *)
Record BaseStar := mkStar { pt :> Point; flux : Q }.

(** Modelled from the spec: [Point::Dist2] (Point.h is not part of the
    sources at hand), the squared Euclidean distance between two points. *)
Definition Dist2 (p q : Point) : Q :=
  ((x p - x q) * (x p - x q) + (y p - y q) * (y p - y q))%Q.

Module FastFinder.

(** [std::sort] with the comparator [E1->x < E2->x] (resp. [y]): any sorting
    algorithm; the order among equal keys is left open by the source and no
    statement below depends on it. *)
Definition le_x (a b : BaseStar) : Prop := (x a <= x b)%Q.
Definition le_y (a b : BaseStar) : Prop := (y a <= y b)%Q.

#[global] Instance le_x_dec : RelDecision le_x.
Proof. intros a b. unfold le_x. destruct (Qlt_le_dec (x b) (x a)); [right|left]; [by apply Qlt_not_le|done]. Defined.
#[global] Instance le_y_dec : RelDecision le_y.
Proof. intros a b. unfold le_y. destruct (Qlt_le_dec (y b) (y a)); [right|left]; [by apply Qlt_not_le|done]. Defined.

(** What an access outside of the array reads; the searches below never
    make one (they stay between the borders of a slice). *)
Definition dummy : BaseStar := mkStar (mkPoint 0 0) 0.

(** [stars[i]] *)
Definition at_ (stars : list BaseStar) (i : nat) : BaseStar := nth i stars dummy.
(** [*p] for an iterator [p] into [stars] *)
Definition deref (stars : list BaseStar) (p : Z) : BaseStar := at_ stars (Z.to_nat p).

Record t := mk {
  baselist : list BaseStar;
  count : nat;
  stars : list BaseStar;
  nslice : nat;
  index : list nat;
  xmin : Q; xmax : Q; xstep : Q
}.

(** The inner loop of the constructor:
    [while (istar < count && stars[istar]->x < xend) ++istar;] *)
Fixpoint advance (fuel : nat) (stars : list BaseStar) (count : nat) (xend : Q) (istar : nat) : nat :=
  match fuel with
  | O => istar
  | S fuel' =>
      if (istar <? count)%nat && Qlt_bool (x (at_ stars istar)) xend
      then advance fuel' stars count xend (S istar)
      else istar
  end.

(** The loop [for (islice = 1; islice < nslice; ++islice)] that fills
    [index]; [n] is the number of iterations left. *)
Fixpoint fill_index (n : nat) (stars : list BaseStar) (count : nat) (xmin xstep : Q)
    (islice istar : nat) (index : list nat) : list nat :=
  match n with
  | O => index
  | S n' =>
      let xend := (xmin + inject_Z (Z.of_nat islice) * xstep)%Q in
      let istar' := advance (count - istar) stars count xend istar in
      fill_index n' stars count xmin xstep (S islice) istar' (<[islice := istar']> index)
  end.

(** [sort(stars.begin()+lo, stars.begin()+hi, by y)] *)
Definition sort_range (lo hi : nat) (stars : list BaseStar) : list BaseStar :=
  take lo stars ++ merge_sort le_y (take (hi - lo) (drop lo stars)) ++ drop hi stars.

(** The loop [for (islice = 0; islice < nslice; ++islice)] that sorts each
    slice in y. *)
Fixpoint sort_slices (n : nat) (index : list nat) (islice : nat) (stars : list BaseStar) : list BaseStar :=
  match n with
  | O => stars
  | S n' =>
      sort_slices n' index (S islice)
        (sort_range (nth islice index O) (nth (S islice) index O) stars)
  end.

(** The constructor [FastFinder::FastFinder(List, NXslice)].  With an empty
    list the source returns before [xmin], [xmax] and [xstep] are set; they
    are 0 here. *)
Definition new (List : list BaseStar) (NXslice : nat) : t :=
  let count := length List in
  let index0 := replicate (NXslice + 1) O in
  if (count =? 0)%nat then mk List count List NXslice index0 0 0 0 else
  let stars := merge_sort le_x List in
  let xmin := x (at_ stars 0) in
  let xmax := x (at_ stars (count - 1)) in
  let nslice := Nat.min NXslice count in
  let nslice := if Qeq_bool xmin xmax then 1%nat else nslice in
  let xstep := ((xmax - xmin) / inject_Z (Z.of_nat nslice))%Q in
  let index := <[0%nat := 0%nat]> index0 in
  let index := fill_index (nslice - 1) stars count xmin xstep 1 0 index in
  let index := <[nslice := count]> index in
  let stars := sort_slices nslice index 0 stars in
  mk List count stars nslice index xmin xmax xstep.

(** The loop of [locate_y_start]; on exit the source returns [Begin]. *)
Fixpoint locate_y_start_loop (fuel : nat) (stars : list BaseStar) (YVal : Q) (Begin span : Z) : Z :=
  match fuel with
  | O => Begin
  | S fuel' =>
      if 1 <? span then
        let half_span := Z.quot span 2 in
        let middle := Begin + half_span in
        if Qlt_bool (y (deref stars middle)) YVal
        then locate_y_start_loop fuel' stars YVal (Begin + half_span) (span - half_span)
        else locate_y_start_loop fuel' stars YVal Begin (span - (span - half_span))
      else Begin
  end.

Definition locate_y_start (F : t) (Begin End : Z) (YVal : Q) : Z :=
  let stars_end := Z.of_nat (length (stars F)) in
  if (Begin =? stars_end) || (Begin =? End) then stars_end else
  let span := End - Begin - 1 in
  locate_y_start_loop (Z.to_nat span) (stars F) YVal Begin span.

(** The loop of [locate_y_end]; on exit the source returns [End-1]. *)
Fixpoint locate_y_end_loop (fuel : nat) (stars : list BaseStar) (YVal : Q) (End span : Z) : Z :=
  match fuel with
  | O => End
  | S fuel' =>
      if 1 <? span then
        let half_span := Z.quot span 2 in
        let middle := End - half_span in
        if Qlt_bool YVal (y (deref stars middle))
        then locate_y_end_loop fuel' stars YVal (End - half_span) (span - half_span)
        else locate_y_end_loop fuel' stars YVal End (span - (span - half_span))
      else End
  end.

Definition locate_y_end (F : t) (Begin End : Z) (YVal : Q) : Z :=
  let stars_end := Z.of_nat (length (stars F)) in
  if Begin =? stars_end then stars_end else
  let span := End - Begin - 1 in
  locate_y_end_loop (Z.to_nat span) (stars F) YVal End span - 1.

(** [find_range_in_slice]: the pair [(Start, End)] written through the two
    reference parameters. *)
Definition find_range_in_slice (F : t) (iSlice : Z) (YStart YEnd : Q) : Z * Z :=
  let b := Z.of_nat (nth (Z.to_nat iSlice) (index F) O) in
  let e := Z.of_nat (nth (Z.to_nat (iSlice + 1)) (index F) O) in
  let Start := locate_y_start F b e YStart in
  let End := locate_y_end F Start e YEnd in
  (Start, End).

Module Iterator.

Record t := mk {
  finder : FastFinder.t;
  null_value : Z;
  current : Z;
  pend : Z;
  currentSlice : Z;
  endSlice : Z;
  yStart : Q;
  yEnd : Q
}.

(** The [do ... while (current == null_value)] loop of [operator++]. *)
Fixpoint next_slice (fuel : nat) (it : t) : t :=
  match fuel with
  | O => it
  | S fuel' =>
      let cs := currentSlice it + 1 in
      if endSlice it <=? cs then
        mk (finder it) (null_value it) (null_value it) (pend it) cs (endSlice it) (yStart it) (yEnd it)
      else
        let '(c, p) := find_range_in_slice (finder it) cs (yStart it) (yEnd it) in
        let it' := mk (finder it) (null_value it) c p cs (endSlice it) (yStart it) (yEnd it) in
        if c =? null_value it then next_slice fuel' it' else it'
  end.

(** [operator++]; [check()] only logs. *)
Definition incr (it : t) : t :=
  if negb (current it =? pend it) then
    mk (finder it) (null_value it) (current it + 1) (pend it) (currentSlice it) (endSlice it)
       (yStart it) (yEnd it)
  else next_slice (S (Z.to_nat (endSlice it - currentSlice it))) it.

(** [operator*]: [None] is [nullptr]. *)
Definition star (it : t) : option BaseStar :=
  if negb (current it =? null_value it) then Some (deref (stars (finder it)) (current it)) else None.

(** The constructor [Iterator(F, Where, MaxDist)].  Members the source leaves
    unset on a path are 0 here.  [int(finder.nslice)] is
    [to_int (Z.of_nat (nslice F))], and the [+ 1] on the [int] of the end
    slice is an addition of [int]s. *)
Definition new (F : FastFinder.t) (Where : Point) (MaxDist : Q) : t :=
  let null := Z.of_nat (length (stars F)) in
  let startSlice_endSlice :=
    if negb (Qeq_bool (xstep F) 0) then
      (Z.max 0 (trunc ((x Where - MaxDist - xmin F) / xstep F)),
       Z.min (to_int (Z.of_nat (nslice F)))
             (to_int (trunc ((x Where + MaxDist - xmin F) / xstep F) + 1)))
    else (0, 1) in
  let startSlice := fst startSlice_endSlice in
  let endSlice := snd startSlice_endSlice in
  if (to_int (Z.of_nat (nslice F)) <=? startSlice) || (endSlice <? 0) then
    mk F null null null 0 endSlice 0 0
  else
    let yStart := (y Where - MaxDist)%Q in
    let yEnd := (y Where + MaxDist)%Q in
    incr (mk F null null null (startSlice - 1) endSlice yStart yEnd).

End Iterator.

Definition begin_scan (F : t) (Where : Point) (MaxDist : Q) : Iterator.t :=
  Iterator.new F Where MaxDist.

(** The offsets visited by [for (it = begin_scan(...); *it != nullptr; ++it)]. *)
Fixpoint scan_from (fuel : nat) (it : Iterator.t) : list Z :=
  match fuel with
  | O => []
  | S fuel' =>
      if Iterator.current it =? Iterator.null_value it then []
      else Iterator.current it :: scan_from fuel' (Iterator.incr it)
  end.

Definition scan (F : t) (Where : Point) (MaxDist : Q) : list Z :=
  scan_from (S (count F)) (begin_scan F Where MaxDist).

(** The loop of [FindClosest]. *)
Fixpoint FindClosest_loop (fuel : nat) (Where : Point) (SkipIt : option (BaseStar -> bool))
    (it : Iterator.t) (pbest : option BaseStar) (minDist2 : Q) : option BaseStar :=
  match fuel with
  | O => pbest
  | S fuel' =>
      match Iterator.star it with
      | None => pbest
      | Some s =>
          if match SkipIt with Some f => f s | None => false end
          then FindClosest_loop fuel' Where SkipIt (Iterator.incr it) pbest minDist2
          else
            let dist2 := Dist2 Where s in
            if Qlt_bool dist2 minDist2
            then FindClosest_loop fuel' Where SkipIt (Iterator.incr it) (Some s) dist2
            else FindClosest_loop fuel' Where SkipIt (Iterator.incr it) pbest minDist2
      end
  end.

Definition FindClosest (F : t) (Where : Point) (MaxDist : Q)
    (SkipIt : option (BaseStar -> bool)) : option BaseStar :=
  if (count F =? 0)%nat then None else
  let it := begin_scan F Where MaxDist in
  match Iterator.star it with
  | None => None
  | Some _ =>
      FindClosest_loop (S (count F)) Where SkipIt it None (MaxDist * MaxDist)%Q
  end.

End FastFinder.


(** ** The fitter core ([FitterBase.cc]) *)

Module Fitter.

(** Arithmetic of the 32-bit [unsigned] counters. *)
Definition wrap32 (z : Z) : Z := z mod 2 ^ 32.

Inductive MinimizeResult := Converged | Chi2Increased | Failed.

(** *** The Associations graph

    Stars are shared through pointers and mutated in place; a pointer is the
    position of the star in the store of its kind. *)

Record MeasuredStar := mkMeasuredStar {
  fittedStar : nat;          (* getFittedStar() *)
  ccdImage : nat;            (* getCcdImage() *)
  valid : bool               (* isValid() / setValid() *)
}.

Record FittedStar := mkFittedStar {
  measurementCount : Z;      (* getMeasurementCount(), an int *)
  refStar : option nat;      (* getRefStar(), None is nullptr *)
  indexInMatrix : nat        (* getIndexInMatrix() *)
}.

Record Associations := mkAssociations {
  ccdImageList : list nat;
  measuredStars : list MeasuredStar;
  fittedStarList : list FittedStar;
  refStarList : list nat
}.

#[global] Instance MeasuredStar_inhabited : Inhabited MeasuredStar :=
  populate (mkMeasuredStar 0 0 false).
#[global] Instance FittedStar_inhabited : Inhabited FittedStar :=
  populate (mkFittedStar 0 None 0).

Definition getMeasuredStar (a : Associations) (m : nat) : MeasuredStar := measuredStars a !!! m.
Definition getFittedStar (a : Associations) (f : nat) : FittedStar := fittedStarList a !!! f.

(** The dynamic type of the star attached to a chi2 term, as
    [std::dynamic_pointer_cast] tells it. *)
Inductive StarPtr := MeasuredPtr (m : nat) | FittedPtr (f : nat).

(** Modelled from the spec: [Chi2Star] (Chi2.h is not part of the sources at
    hand), the triple (contributing star, chi2 value, ndof contribution). *)
Record Chi2Star := mkChi2Star { star : StarPtr; chi2 : Q; ndof : Z }.

Record Chi2Statistic := mkChi2Statistic { stat_chi2 : Q; stat_ndof : Z }.

(** [Chi2Star::operator<] compares the chi2 values; [sort] leaves the order
    among equal values open and nothing below depends on it. *)
Definition le_chi2 (a b : Chi2Star) : Prop := (chi2 a <= chi2 b)%Q.
#[global] Instance le_chi2_dec : RelDecision le_chi2.
Proof.
  intros a b. unfold le_chi2.
  destruct (Qlt_le_dec (chi2 b) (chi2 a)); [right|left]; [by apply Qlt_not_le|done].
Defined.

Record Triplet := mkTriplet { row : nat; col : nat; value : Q }.

(** Modelled from the spec: [TripletList] (Tripletlist.h is not part of the
    sources at hand), a growable list of (row, col, value) with the column
    cursor [nextFreeIndex]. *)
Record TripletList := mkTripletList { triplets : list Triplet; nextFreeIndex : nat }.
Definition TripletList_new (reserved : Z) : TripletList := mkTripletList [] 0.

(** [Eigen::VectorXd] *)
Definition Vector := list Q.
Definition Vector_zero (n : nat) : Vector := replicate n 0%Q.
Definition Vector_neg (v : Vector) : Vector := map Qopp v.

(** What the fitter takes from Eigen, CHOLMOD and libm. *)
Class External := {
  SparseMatrixD : Type;
  setFromTriplets : nat -> nat -> list Triplet -> SparseMatrixD;
  (* [jacobian * jacobian.transpose()] *)
  mulByTranspose : SparseMatrixD -> SparseMatrixD;
  (* [CholmodSimplicialLDLT2<SparseMatrixD>] *)
  Chol : Type;
  Chol_compute : SparseMatrixD -> Chol;
  (* [chol.info() == Eigen::Success] *)
  Chol_success : Chol -> bool;
  Chol_solve : Chol -> Vector -> Vector;
  Chol_update : Chol -> SparseMatrixD -> bool -> Chol * Z;
  sqrt : Q -> Q
}.

(** The members of [FitterBase]; [M] is the state that the derived fitter and
    its model add. *)
Record t (M : Type) := mk {
  associations : Associations;
  nParTot : nat;
  lastNTrip : Z;
  nMeasuredStars : nat;
  model : M
}.
Arguments mk {M}.
Arguments associations {M}.
Arguments nParTot {M}.
Arguments lastNTrip {M}.
Arguments nMeasuredStars {M}.
Arguments model {M}.

(** The pure virtual members of [FitterBase].  [measChi2] and [refChi2] are
    the chi2 value and ndof that the derived fitter computes for one
    measurement term and for one reference term. *)
Class Virtual (M : Type) := {
  assignIndices : string -> t M -> t M;
  offsetParams : Vector -> t M -> t M;
  measChi2 : t M -> nat -> Q * Z;
  refChi2 : t M -> nat -> Q * Z;
  getIndicesOfMeasuredStar : t M -> nat -> list nat;
  leastSquareDerivativesMeasurement :
    t M -> nat -> TripletList -> Vector -> option (list nat) -> TripletList * Vector;
  leastSquareDerivativesReference :
    t M -> list nat -> TripletList -> Vector -> TripletList * Vector
}.

(** The messages that [findOutliers] and [minimize] log at the WARN and ERROR
    levels. *)
Inductive LogMsg :=
| Warn_NoMeasuredStars (f : nat)
| Warn_OneMeasuredNoRef (f : nat)
| Warn_Chi2WentUp
| Error_FactorizationFailed.

Section FitterBase.
Context {E : External} {M : Type} {V : Virtual M}.

(** Modelled from the spec: [accumulateStatImageList] (defined by the derived
    fitters, which are not part of the sources at hand): one term per
    MeasuredStar; stars marked invalid are skipped. *)
Definition accumulateStatImageList (F : t M) : list Chi2Star :=
  omap (fun m =>
          if valid (getMeasuredStar (associations F) m)
          then Some (mkChi2Star (MeasuredPtr m) (fst (measChi2 F m)) (snd (measChi2 F m)))
          else None)
       (seq 0 (length (measuredStars (associations F)))).

(** Modelled from the spec: [accumulateStatRefStars] (defined by the derived
    fitters): one term per FittedStar that is linked to a RefStar. *)
Definition accumulateStatRefStars (F : t M) : list Chi2Star :=
  omap (fun f =>
          match refStar (getFittedStar (associations F) f) with
          | Some _ => Some (mkChi2Star (FittedPtr f) (fst (refChi2 F f)) (snd (refChi2 F f)))
          | None => None
          end)
       (seq 0 (length (fittedStarList (associations F)))).

Definition Qsum (l : list Q) : Q := foldr Qplus 0%Q l.
Definition Zsum (l : list Z) : Z := foldr Z.add 0 l.

(** [computeChi2]: the accumulator is a [Chi2Statistic], which adds up the
    terms. *)
Definition computeChi2 (F : t M) : Chi2Statistic :=
  let terms := accumulateStatImageList F ++ accumulateStatRefStars F in
  mkChi2Statistic (Qsum (map chi2 terms)) (Zsum (map ndof terms) - Z.of_nat (nParTot F)).

(** Modelled from the spec: [Chi2List::computeAverageAndSigma] (Chi2.h is not
    part of the sources at hand): the unweighted mean and the sample standard
    deviation of the chi2 values. *)
Definition computeAverageAndSigma (l : list Chi2Star) : Q * Q :=
  let n := inject_Z (Z.of_nat (length l)) in
  let average := (Qsum (map chi2 l) / n)%Q in
  let sum2 := Qsum (map (fun c => (chi2 c - average) * (chi2 c - average))%Q l) in
  (average, sqrt (sum2 / (n - 1))%Q).

(** The local variables of [findOutliers] that its loop updates. *)
Record OutlierScan := mkOutlierScan {
  affectedParams : list Z;
  nOutliers : Z;
  msOutliers : list nat;
  fsOutliers : list nat;
  warnings : list LogMsg
}.

(** [for (auto const &i : indices) if (affectedParams(i) != 0) drop_it = false;]
    An index outside of the vector breaks an invariant of the fitter (Eigen
    asserts); here such a read gives the default value and such a write does
    nothing, and the statements below are about the indices below
    [nParTot]. *)
Definition drop_it (affected : list Z) (indices : list nat) : bool :=
  forallb (fun i => (affected !!! i) =? 0) indices.

(** [for (auto const &i : indices) affectedParams(i)++;] *)
Definition mark (affected : list Z) (indices : list nat) : list Z :=
  foldl (fun a i => alter Z.succ i a) affected indices.

(** One turn of the loop of [findOutliers] past the [break] test; the two
    early [continue]s only log. *)
Definition examine (F : t M) (c : Chi2Star) (s : OutlierScan) : OutlierScan :=
  match star c with
  | FittedPtr f =>
      (* it is a reference outlier *)
      let fs := getFittedStar (associations F) f in
      if measurementCount fs =? 0 then
        mkOutlierScan (affectedParams s) (nOutliers s) (msOutliers s) (fsOutliers s)
                      (warnings s ++ [Warn_NoMeasuredStars f])
      else
        let indices := [indexInMatrix fs] in
        if drop_it (affectedParams s) indices then
          mkOutlierScan (mark (affectedParams s) indices) (wrap32 (nOutliers s + 1))
                        (msOutliers s) (fsOutliers s ++ [f]) (warnings s)
        else s
  | MeasuredPtr m =>
      (* it is a measurement outlier *)
      let tempFittedStar := fittedStar (getMeasuredStar (associations F) m) in
      let fs := getFittedStar (associations F) tempFittedStar in
      if (measurementCount fs =? 1) && negb (bool_decide (is_Some (refStar fs))) then
        mkOutlierScan (affectedParams s) (nOutliers s) (msOutliers s) (fsOutliers s)
                      (warnings s ++ [Warn_OneMeasuredNoRef tempFittedStar])
      else
        let indices := getIndicesOfMeasuredStar F m in
        if drop_it (affectedParams s) indices then
          mkOutlierScan (mark (affectedParams s) indices) (wrap32 (nOutliers s + 1))
                        (msOutliers s ++ [m]) (fsOutliers s) (warnings s)
        else s
  end.

(** [for (auto chi2 = chi2List.rbegin(); chi2 != chi2List.rend(); ++chi2)]
    over the terms in the order of the traversal. *)
Fixpoint outlier_loop (F : t M) (cut : Q) (l : list Chi2Star) (s : OutlierScan) : OutlierScan :=
  match l with
  | [] => s
  | c :: l' =>
      if Qlt_bool (chi2 c) cut then s  (* break, because the array is sorted *)
      else outlier_loop F cut l' (examine F c s)
  end.

(** [chi2List[i].chi2] *)
Definition chi2_at (l : list Chi2Star) (i : nat) : Q :=
  chi2 (nth i l (mkChi2Star (FittedPtr 0) 0 0)).

(** The sorted terms and the cut of [findOutliers]. *)
Definition sorted_chi2List (F : t M) : list Chi2Star :=
  merge_sort le_chi2 (accumulateStatImageList F ++ accumulateStatRefStars F).

(** The median that [findOutliers] logs next to the mean and sigma. *)
Definition median (chi2List : list Chi2Star) : Q :=
  let nval := length chi2List in
  if Nat.odd nval then chi2_at chi2List (nval / 2)
  else ((1 # 2) * (chi2_at chi2List (nval / 2 - 1) + chi2_at chi2List (nval / 2)))%Q.

(** [cut = averageAndSigma.first + nSigmaCut * averageAndSigma.second] *)
Definition cut_of (nSigmaCut : Q) (chi2List : list Chi2Star) : Q :=
  let averageAndSigma := computeAverageAndSigma chi2List in
  (fst averageAndSigma + nSigmaCut * snd averageAndSigma)%Q.

(** [findOutliers(nSigmaCut, msOutliers, fsOutliers)]: the returned count,
    the two lists after the call, and the warnings logged. *)
Definition findOutliers (F : t M) (nSigmaCut : Q) (msOutliers0 fsOutliers0 : list nat)
    : Z * list nat * list nat * list LogMsg :=
  let chi2List := accumulateStatImageList F ++ accumulateStatRefStars F in
  let nval := length chi2List in
  if (nval =? 0)%nat then (0, msOutliers0, fsOutliers0, []) else
  let chi2List := merge_sort le_chi2 chi2List in
  let cut := cut_of nSigmaCut chi2List in
  let s0 := mkOutlierScan (replicate (nParTot F) 0) 0 msOutliers0 fsOutliers0 [] in
  let s := outlier_loop F cut (reverse chi2List) s0 in
  (nOutliers s, msOutliers s, fsOutliers s, warnings s).

(** [createHessian] *)
Definition createHessian (nParTot : nat) (tripletList : TripletList) : SparseMatrixD :=
  mulByTranspose (setFromTriplets nParTot (nextFreeIndex tripletList) (triplets tripletList)).

(** [leastSquareDerivatives] *)
Definition leastSquareDerivatives (F : t M) (tripletList : TripletList) (grad : Vector)
    : TripletList * Vector :=
  let '(tl, g) :=
    foldl (fun tg ccd => leastSquareDerivativesMeasurement F ccd (fst tg) (snd tg) None)
          (tripletList, grad) (ccdImageList (associations F)) in
  leastSquareDerivativesReference F (seq 0 (length (fittedStarList (associations F)))) tl g.

(** [outliersContributions] *)
Definition outliersContributions (F : t M) (msOutliers fsOutliers : list nat)
    (tripletList : TripletList) (grad : Vector) : TripletList * Vector :=
  let '(tl, g) :=
    foldl (fun tg outlier =>
             let tmp := [outlier] in
             let ccd := ccdImage (getMeasuredStar (associations F) outlier) in
             leastSquareDerivativesMeasurement F ccd (fst tg) (snd tg) (Some tmp))
          (tripletList, grad) msOutliers in
  leastSquareDerivativesReference F fsOutliers tl g.

Definition setValid (b : bool) (ms : MeasuredStar) : MeasuredStar :=
  mkMeasuredStar (fittedStar ms) (ccdImage ms) b.
Definition decrMeasurementCount (fs : FittedStar) : FittedStar :=
  mkFittedStar (measurementCount fs - 1) (refStar fs) (indexInMatrix fs).
Definition setRefStar (r : option nat) (fs : FittedStar) : FittedStar :=
  mkFittedStar (measurementCount fs) r (indexInMatrix fs).

(** The body of the loop of [removeMeasOutliers]. *)
Definition removeMeasOutlier (a : Associations) (measuredStar : nat) : Associations :=
  let fittedStar := fittedStar (getMeasuredStar a measuredStar) in
  mkAssociations (ccdImageList a)
    (alter (setValid false) measuredStar (measuredStars a))
    (alter decrMeasurementCount fittedStar (fittedStarList a))
    (refStarList a).

Definition removeMeasOutliers_assoc (a : Associations) (outliers : list nat) : Associations :=
  foldl removeMeasOutlier a outliers.

Definition removeRefOutlier (a : Associations) (fittedStar : nat) : Associations :=
  mkAssociations (ccdImageList a) (measuredStars a)
    (alter (setRefStar None) fittedStar (fittedStarList a))
    (refStarList a).

Definition removeRefOutliers_assoc (a : Associations) (outliers : list nat) : Associations :=
  foldl removeRefOutlier a outliers.

Definition with_associations (F : t M) (a : Associations) : t M :=
  mk a (nParTot F) (lastNTrip F) (nMeasuredStars F) (model F).
Definition with_lastNTrip (F : t M) (n : Z) : t M :=
  mk (associations F) (nParTot F) n (nMeasuredStars F) (model F).

Definition removeMeasOutliers (F : t M) (outliers : list nat) : t M :=
  with_associations F (removeMeasOutliers_assoc (associations F) outliers).
Definition removeRefOutliers (F : t M) (outliers : list nat) : t M :=
  with_associations F (removeRefOutliers_assoc (associations F) outliers).

(** The variables that live across the turns of the loop of [minimize]. *)
Record Loop := mkLoop {
  fit : t M;
  chol : Chol;
  grad : Vector;
  oldChi2 : Q;
  totalMeasOutliers : Z;
  totalRefOutliers : Z;
  log : list LogMsg
}.

(** How one turn of [while (true)] ends: the function returns ([Return],
    after a [break] or at a [return]) or the loop goes round again. *)
Inductive Turn :=
| Return (r : MinimizeResult) (F : t M) (log : list LogMsg)
| Again (l : Loop).

Definition iteration (nSigmaCut : Q) (doRankUpdate : bool) (l : Loop) : Turn :=
  let delta := Chol_solve (chol l) (grad l) in
  let F := offsetParams delta (fit l) in
  let currentChi2 := computeChi2 F in
  if Qlt_bool (oldChi2 l) (stat_chi2 currentChi2)
     && negb (wrap32 (totalMeasOutliers l + totalRefOutliers l) =? 0)
  then Return Chi2Increased F (log l ++ [Warn_Chi2WentUp])
  else
    let oldChi2 := stat_chi2 currentChi2 in
    if Qeq_bool nSigmaCut 0 then Return Converged F (log l) else
    let '(nOutliers, msOutliers, fsOutliers, warns) := findOutliers F nSigmaCut [] [] in
    let log := log l ++ warns in
    let totalMeasOutliers := wrap32 (totalMeasOutliers l + Z.of_nat (length msOutliers)) in
    let totalRefOutliers := wrap32 (totalRefOutliers l + Z.of_nat (length fsOutliers)) in
    if nOutliers =? 0 then Return Converged F log else
    let outlierTriplets := TripletList_new nOutliers in
    let grad := Vector_zero (nParTot F) in
    let '(outlierTriplets, grad) :=
      outliersContributions F msOutliers fsOutliers outlierTriplets grad in
    let F := removeMeasOutliers F msOutliers in
    let F := removeRefOutliers F fsOutliers in
    if doRankUpdate then
      let H := setFromTriplets (nParTot F) (nextFreeIndex outlierTriplets)
                               (triplets outlierTriplets) in
      let '(chol, update_status) := Chol_update (chol l) H false in
      let grad := Vector_neg grad in
      Again (mkLoop F chol grad oldChi2 totalMeasOutliers totalRefOutliers log)
    else
      let nextTripletList := TripletList_new (lastNTrip F) in
      let grad := Vector_zero (nParTot F) in
      let '(nextTripletList, grad) := leastSquareDerivatives F nextTripletList grad in
      let F := with_lastNTrip F (Z.of_nat (length (triplets nextTripletList))) in
      let hessian := createHessian (nParTot F) nextTripletList in
      let chol := Chol_compute hessian in
      if negb (Chol_success chol)
      then Return Failed F (log ++ [Error_FactorizationFailed])
      else Again (mkLoop F chol grad oldChi2 totalMeasOutliers totalRefOutliers log).

(** [while (true) { ... }]: [None] when the turns allowed are used up. *)
Fixpoint minimize_loop (fuel : nat) (nSigmaCut : Q) (doRankUpdate : bool) (l : Loop)
    : option (MinimizeResult * t M * list LogMsg) :=
  match fuel with
  | O => None
  | S fuel' =>
      match iteration nSigmaCut doRankUpdate l with
      | Return r F lg => Some (r, F, lg)
      | Again l' => minimize_loop fuel' nSigmaCut doRankUpdate l'
      end
  end.

(** The part of [minimize] that comes before the loop: either the function
    returns [Failed] already or the loop is entered. *)
Definition minimize_init (whatToFit : string) (F : t M) : Turn :=
  let F := assignIndices whatToFit F in
  let nTrip := if negb (lastNTrip F =? 0) then lastNTrip F else 1000000 in
  let tripletList := TripletList_new nTrip in
  let grad := Vector_zero (nParTot F) in
  let '(tripletList, grad) := leastSquareDerivatives F tripletList grad in
  let F := with_lastNTrip F (Z.of_nat (length (triplets tripletList))) in
  let hessian := createHessian (nParTot F) tripletList in
  let chol := Chol_compute hessian in
  if negb (Chol_success chol) then Return Failed F [Error_FactorizationFailed] else
  let totalMeasOutliers := 0 in
  let totalRefOutliers := 0 in
  let oldChi2 := stat_chi2 (computeChi2 F) in
  Again (mkLoop F chol grad oldChi2 totalMeasOutliers totalRefOutliers []).

Definition minimize (fuel : nat) (whatToFit : string) (nSigmaCut : Q) (doRankUpdate : bool)
    (F : t M) : option (MinimizeResult * t M * list LogMsg) :=
  match minimize_init whatToFit F with
  | Return r F' lg => Some (r, F', lg)
  | Again l => minimize_loop fuel nSigmaCut doRankUpdate l
  end.

End FitterBase.

(** [saveChi2Contributions] *)

Fixpoint rfind_from (c : ascii) (s : string) (pos : nat) : option nat :=
  match s with
  | EmptyString => None
  | String a s' =>
      match rfind_from c s' (S pos) with
      | Some r => Some r
      | None => if Ascii.eqb a c then Some pos else None
      end
  end.

(** [std::string::rfind(c)]; [None] is [std::string::npos]. *)
Definition rfind (c : ascii) (s : string) : option nat := rfind_from c s 0.

(** [std::string::insert(pos, str)] for [pos <= size()]. *)
Fixpoint String_insert (pos : nat) (str s : string) : string :=
  match pos, s with
  | O, _ => String.append str s
  | S pos', String a s' => String a (String_insert pos' str s')
  | S _, EmptyString => str
  end.

(** The two file names that [saveChi2Contributions] hands to
    [saveChi2MeasContributions] and to [saveChi2RefContributions]. *)
Definition saveChi2Contributions (baseName : string) : string * string :=
  let dot := rfind "."%char baseName in
  let slash := rfind "/"%char baseName in
  let dot :=
    match dot, slash with
    | None, _ => String.length baseName
    | Some d, Some sl => if (d <? sl)%nat then String.length baseName else d
    | Some d, None => d
    end in
  (String_insert dot "-meas" baseName, String_insert dot "-ref" baseName).

End Fitter.

(** ** [MatchConditions] ([ListMatch.h]) *)

Module MatchConditions.

Record t := mk {
  nStarsList1 : Z; nStarsList2 : Z;
  maxTrialCount : Z;
  nSigmas : Q;
  maxShiftX : Q; maxShiftY : Q;
  sizeRatio : Q; deltaSizeRatio : Q; minMatchRatio : Q;
  printLevel : Z;
  algorithm : Z
}.

(** The constructor [MatchConditions()]. *)
Definition new : t :=
  let sizeRatio := 1%Q in
  mk 70 70 4 3 50 50 sizeRatio ((1 # 10) * sizeRatio) (1 / 3) 0 2.

Definition minSizeRatio (c : t) : Q := (sizeRatio c - deltaSizeRatio c)%Q.
Definition maxSizeRatio (c : t) : Q := (sizeRatio c + deltaSizeRatio c)%Q.

End MatchConditions.


(** ** Notions used to state the properties *)

Module FastFinderSpec.
Import FastFinder.

(** The elements of [l] at the positions [lo], ..., [hi-1]. *)
Definition seg {A} (lo hi : nat) (l : list A) : list A := take (hi - lo) (drop lo l).

(** The array is sorted in x. *)
Definition x_sorted (stars : list BaseStar) : Prop :=
  forall i j, (i <= j < length stars)%nat -> (x (at_ stars i) <= x (at_ stars j))%Q.

(** [r] is the position of the first star whose x is not below [xend]. *)
Definition bound (stars : list BaseStar) (xend : Q) (r : nat) : Prop :=
  (r <= length stars)%nat /\
  (forall k, (k < r)%nat -> (x (at_ stars k) < xend)%Q) /\
  (forall k, (r <= k < length stars)%nat -> (xend <= x (at_ stars k))%Q).

(** The left border of slice [i]. *)
Definition xend_of (xmin xstep : Q) (i : nat) : Q := (xmin + inject_Z (Z.of_nat i) * xstep)%Q.

(** What the constructor establishes. *)
Record wf (F : t) : Prop := mk_wf {
  wf_length : length (stars F) = count F;
  wf_perm : stars F ≡ₚ baselist F;
  wf_index_length : (nslice F < length (index F))%nat;
  wf_index_0 : nth 0 (index F) O = O;
  wf_index_n : nth (nslice F) (index F) O = count F;
  wf_index_mono : forall i, (i < nslice F)%nat -> (nth i (index F) O <= nth (S i) (index F) O)%nat;
  wf_x_lo : forall i k, (i < nslice F)%nat ->
    (nth i (index F) O <= k < nth (S i) (index F) O)%nat ->
    (xend_of (xmin F) (xstep F) i <= x (at_ (stars F) k))%Q;
  wf_x_hi : forall i k, (S i < nslice F)%nat ->
    (nth i (index F) O <= k < nth (S i) (index F) O)%nat ->
    (x (at_ (stars F) k) < xend_of (xmin F) (xstep F) (S i))%Q;
  wf_x_max : forall k, (k < count F)%nat ->
    (x (at_ (stars F) k) <= xend_of (xmin F) (xstep F) (nslice F))%Q;
  wf_y : forall i k1 k2, (i < nslice F)%nat ->
    (nth i (index F) O <= k1)%nat -> (k1 <= k2)%nat -> (k2 < nth (S i) (index F) O)%nat ->
    (y (at_ (stars F) k1) <= y (at_ (stars F) k2))%Q;
  wf_xstep : (0 <= xstep F)%Q;
  wf_one_slice : (xstep F == 0)%Q -> (1 <= nslice F)%nat /\ nth 1 (index F) O = count F
}.

(** The borders [index], read from slice [islice] on, grow. *)
Definition borders_grow (index : list nat) (islice n : nat) : Prop :=
  forall j, (islice <= j < islice + n)%nat -> (nth j index O <= nth (S j) index O)%nat.

(** The offsets that the iterator yields in slice [i]: from [Start] to [End]
    of [find_range_in_slice], both included. *)
Definition range_of (F : t) (yStart yEnd : Q) (i : Z) : list Z :=
  let '(c, p) := find_range_in_slice F i yStart yEnd in
  if c =? Z.of_nat (length (stars F)) then [] else seqZ c (p - c + 1).

(** The offsets yielded in the [n] slices from slice [i] on. *)
Fixpoint ranges_from (F : t) (yStart yEnd : Q) (n : nat) (i : Z) : list Z :=
  match n with
  | O => []
  | S n' => range_of F yStart yEnd i ++ ranges_from F yStart yEnd n' (i + 1)
  end.

(** The first and one past the last slice that [Iterator] visits. *)
Definition startSlice (F : t) (Where : Point) (MaxDist : Q) : Z :=
  if negb (Qeq_bool (xstep F) 0)
  then Z.max 0 (trunc ((x Where - MaxDist - xmin F) / xstep F)) else 0.
Definition endSlice (F : t) (Where : Point) (MaxDist : Q) : Z :=
  if negb (Qeq_bool (xstep F) 0)
  then Z.min (to_int (Z.of_nat (nslice F)))
             (to_int (trunc ((x Where + MaxDist - xmin F) / xstep F) + 1))
  else 1.

(** The offsets that a scan yields, slice by slice; the iterator is empty
    when the first slice lies beyond the last one of the index or the end
    slice is negative. *)
Definition visited_ranges (F : t) (Where : Point) (MaxDist : Q) : list Z :=
  let ss := startSlice F Where MaxDist in
  let es := endSlice F Where MaxDist in
  if (to_int (Z.of_nat (nslice F)) <=? ss) || (es <? 0) then []
  else ranges_from F (y Where - MaxDist) (y Where + MaxDist) (Z.to_nat (es - ss)) ss.

(** Slice [i] is visited by the scan. *)
Definition visited (F : t) (Where : Point) (MaxDist : Q) (i : Z) : Prop :=
  (to_int (Z.of_nat (nslice F)) <=? startSlice F Where MaxDist) || (endSlice F Where MaxDist <? 0) = false /\
  startSlice F Where MaxDist <= i < endSlice F Where MaxDist.


(** [SkipIt && SkipIt(s)] *)
Definition skipped (SkipIt : option (BaseStar -> bool)) (s : BaseStar) : bool :=
  match SkipIt with Some f => f s | None => false end.

(** The closest star among the candidates [l], as the loop of [FindClosest]
    selects it from the stars it is handed one after the other. *)
Fixpoint closest (Where : Point) (SkipIt : option (BaseStar -> bool)) (l : list BaseStar)
    (pbest : option BaseStar) (minDist2 : Q) : option BaseStar :=
  match l with
  | [] => pbest
  | s :: l' =>
      if skipped SkipIt s then closest Where SkipIt l' pbest minDist2
      else if Qlt_bool (Dist2 Where s) minDist2
           then closest Where SkipIt l' (Some s) (Dist2 Where s)
           else closest Where SkipIt l' pbest minDist2
  end.

(** The stars that a scan hands to its caller. *)
Definition candidates (F : t) (Where : Point) (MaxDist : Q) : list BaseStar :=
  map (deref (stars F)) (scan F Where MaxDist).

(** Three stars used as a concrete input. *)
Definition stars3 : list BaseStar :=
  [mkStar (mkPoint 0 0) 1; mkStar (mkPoint 10 0) 1; mkStar (mkPoint 10 100) 1].



End FastFinderSpec.

Module FitterSpec.
Import Fitter.

(** The character [c] occurs in [s]. *)
Fixpoint contains (c : ascii) (s : string) : bool :=
  match s with
  | EmptyString => false
  | String a s' => Ascii.eqb a c || contains c s'
  end.

Section Spec.
Context {E : External} {M : Type} {V : Virtual M}.

(** The chi2 terms of a fit: the measurement terms, then the reference
    terms. *)
Definition terms (F : t M) : list Chi2Star :=
  accumulateStatImageList F ++ accumulateStatRefStars F.

Definition measured_of (c : Chi2Star) : option nat :=
  match star c with MeasuredPtr m => Some m | FittedPtr _ => None end.
Definition fitted_of (c : Chi2Star) : option nat :=
  match star c with FittedPtr f => Some f | MeasuredPtr _ => None end.

(** The parameter indices that [findOutliers] attaches to a term. *)
Definition indices_of (F : t M) (c : Chi2Star) : list nat :=
  match star c with
  | FittedPtr f => [indexInMatrix (getFittedStar (associations F) f)]
  | MeasuredPtr m => getIndicesOfMeasuredStar F m
  end.

(** The two protective cases of [findOutliers]: a reference term whose
    FittedStar has no measurement, a measurement term whose FittedStar has
    exactly one measurement and no RefStar. *)
Definition protected (F : t M) (c : Chi2Star) : bool :=
  match star c with
  | FittedPtr f => measurementCount (getFittedStar (associations F) f) =? 0
  | MeasuredPtr m =>
      let fs := getFittedStar (associations F)
                  (fittedStar (getMeasuredStar (associations F) m)) in
      (measurementCount fs =? 1) && negb (bool_decide (is_Some (refStar fs)))
  end.

Definition warning_of (F : t M) (c : Chi2Star) : LogMsg :=
  match star c with
  | FittedPtr f => Warn_NoMeasuredStars f
  | MeasuredPtr m => Warn_OneMeasuredNoRef (fittedStar (getMeasuredStar (associations F) m))
  end.

(** No parameter index of the vector [affectedParams] belongs to both
    terms. *)
Definition disjoint_indices (F : t M) (c1 c2 : Chi2Star) : Prop :=
  forall i, (i < nParTot F)%nat -> i ∈ indices_of F c1 -> i ∉ indices_of F c2.

(** The terms that the loop of [findOutliers] examines in the traversal [l]:
    those before the first term below the cut. *)
Fixpoint examined (cut : Q) (l : list Chi2Star) : list Chi2Star :=
  match l with
  | [] => []
  | c :: l' => if Qlt_bool (chi2 c) cut then [] else c :: examined cut l'
  end.

(** The state of the loop of [findOutliers] when the terms [rec] have been
    recorded, in this order, since the call. *)
Record scan_inv (F : t M) (msOutliers0 fsOutliers0 : list nat)
    (s : OutlierScan) (rec : list Chi2Star) : Prop := mk_scan_inv {
  inv_ms : msOutliers s = msOutliers0 ++ omap measured_of rec;
  inv_fs : fsOutliers s = fsOutliers0 ++ omap fitted_of rec;
  inv_n : nOutliers s = wrap32 (Z.of_nat (length rec));
  inv_length : length (affectedParams s) = nParTot F;
  inv_nonneg : Forall (fun z => 0 <= z) (affectedParams s);
  inv_marked : forall c i, c ∈ rec -> i ∈ indices_of F c -> (i < nParTot F)%nat ->
    0 < affectedParams s !!! i;
  inv_disjoint : ForallOrdPairs (disjoint_indices F) rec
}.

(** The state of the fitter after the solve-and-offset step of a turn. *)
Definition solved (l : Loop) : t M :=
  offsetParams (Chol_solve (chol l) (grad l)) (fit l).

(** The test that ends [minimize] with [Chi2Increased]. *)
Definition chi2_went_up (l : Loop) : bool :=
  Qlt_bool (oldChi2 l) (stat_chi2 (computeChi2 (solved l)))
  && negb (wrap32 (totalMeasOutliers l + totalRefOutliers l) =? 0).

(** The state of the fitter once the outliers found in a turn are removed. *)
Definition pruned (nSigmaCut : Q) (l : Loop) : t M :=
  let '(_, msOutliers, fsOutliers, _) := findOutliers (solved l) nSigmaCut [] [] in
  removeRefOutliers (removeMeasOutliers (solved l) msOutliers) fsOutliers.

(** The factorization of the Hessian rebuilt from the state [F]. *)
Definition refactored (F : t M) : Chol :=
  Chol_compute
    (createHessian (nParTot F)
       (fst (leastSquareDerivatives F (TripletList_new (lastNTrip F)) (Vector_zero (nParTot F))))).

(** The number of outliers that [findOutliers] reports in a turn. *)
Definition found (nSigmaCut : Q) (l : Loop) : Z * nat :=
  let '(n, msOutliers, fsOutliers, _) := findOutliers (solved l) nSigmaCut [] [] in
  (n, (length msOutliers + length fsOutliers)%nat).

(** The outliers that [findOutliers] hands back in a turn: the measured
    ones and the fitted ones. *)
Definition outliers (nSigmaCut : Q) (l : Loop) : list nat * list nat :=
  let '(_, msOutliers, fsOutliers, _) := findOutliers (solved l) nSigmaCut [] [] in
  (msOutliers, fsOutliers).

(** [reaches nSigmaCut doRankUpdate l0 k removed l]: the loop entered in
    state [l0] is in state [l] after [k] full turns, in which [removed]
    outliers were removed. *)
Inductive reaches (nSigmaCut : Q) (doRankUpdate : bool) (l0 : Loop) : nat -> nat -> Loop -> Prop :=
| reaches_start : reaches nSigmaCut doRankUpdate l0 0 0 l0
| reaches_turn k removed l l' :
    reaches nSigmaCut doRankUpdate l0 k removed l ->
    iteration nSigmaCut doRankUpdate l = Again l' ->
    reaches nSigmaCut doRankUpdate l0 (S k) (removed + snd (found nSigmaCut l)) l'.

(** The valid MeasuredStars attached to the FittedStar [f]. *)
Definition children (a : Associations) (f : nat) : list MeasuredStar :=
  filter (fun ms => valid ms = true /\ fittedStar ms = f) (measuredStars a).

(** The measurement count of [f] is the number of its valid children. *)
Definition count_ok (a : Associations) (f : nat) : Prop :=
  measurementCount (getFittedStar a f) = Z.of_nat (length (children a f)).

(** The number of MeasuredStars of [ms] that are attached to the
    FittedStar [f]. *)
Definition attached (a : Associations) (ms : list nat) (f : nat) : nat :=
  length (filter (fun m => fittedStar (getMeasuredStar a m) = f) ms).

(** What the removal of the measured outliers [ms] and of the reference
    outliers [fs] makes of the stars of [a]: the MeasuredStars of [ms] are
    invalid and the others are as they were; the measurement count of a
    FittedStar is down by one for each of its MeasuredStars in [ms]; the
    FittedStars of [fs] have lost their RefStar link and the others have
    kept theirs; the indices have not moved. *)
Definition removed_from (a a' : Associations) (ms fs : list nat) : Prop :=
  (forall m, m ∈ ms -> getMeasuredStar a' m = setValid false (getMeasuredStar a m)) /\
  (forall m, m ∉ ms -> getMeasuredStar a' m = getMeasuredStar a m) /\
  (forall f, (f < length (fittedStarList a))%nat ->
     measurementCount (getFittedStar a' f) =
     measurementCount (getFittedStar a f) - Z.of_nat (attached a ms f)) /\
  (forall f, f ∈ fs -> refStar (getFittedStar a' f) = None) /\
  (forall f, f ∉ fs -> refStar (getFittedStar a' f) = refStar (getFittedStar a f)) /\
  (forall f, indexInMatrix (getFittedStar a' f) = indexInMatrix (getFittedStar a f)).

(** What the fitter reads of the stars to pick and remove outliers: the
    validity flags and links of the MeasuredStars, the counts and RefStar
    links of the FittedStars. *)
Definition links (a : Associations) : list (nat * bool) * list (Z * option nat) :=
  ((fun ms => (fittedStar ms, valid ms)) <$> measuredStars a,
   (fun fs => (measurementCount fs, refStar fs)) <$> fittedStarList a).

(** The derived fitter keeps its hands off the validity flags, the counts
    and the links when it assigns indices and offsets the parameters. *)
Class Lawful : Prop := {
  assignIndices_links : forall w F, links (associations (assignIndices w F)) = links (associations F);
  offsetParams_links : forall d F, links (associations (offsetParams d F)) = links (associations F)
}.

(** The number of terms that can still be removed: the valid MeasuredStars
    and the FittedStars linked to a RefStar. *)
Definition validCount (a : Associations) : nat :=
  length (filter (fun ms => valid ms = true) (measuredStars a)).
Definition refCount (a : Associations) : nat :=
  length (filter (fun fs => is_Some (refStar fs)) (fittedStarList a)).
Definition removable (a : Associations) : nat := (validCount a + refCount a)%nat.

End Spec.

(** *** A small concrete fit *)

(** A square root that is exact on the squares of rationals. *)
Definition Qsqrt (q : Q) : Q := Z.sqrt (Qnum q) # Pos.sqrt (Qden q).

#[global] Instance toy_External : External := {|
  SparseMatrixD := unit;
  setFromTriplets := fun _ _ _ => tt;
  mulByTranspose := fun _ => tt;
  Chol := bool;
  Chol_compute := fun _ => true;
  Chol_success := fun c => c;
  Chol_solve := fun _ v => v;
  Chol_update := fun c _ _ => (c, 0);
  sqrt := Qsqrt
|}.

(** A fit without parameters of its own: every term has chi2 1 and ndof 1,
    and a measurement depends on the index of its FittedStar. *)
#[global] Instance toy_Virtual : Virtual unit := {|
  assignIndices := fun _ F => F;
  offsetParams := fun _ F => F;
  measChi2 := fun _ _ => (1%Q, 1);
  refChi2 := fun _ _ => (1%Q, 1);
  getIndicesOfMeasuredStar := fun F m =>
    [indexInMatrix (getFittedStar (associations F)
                      (fittedStar (getMeasuredStar (associations F) m)))];
  leastSquareDerivativesMeasurement := fun _ _ tl g _ => (tl, g);
  leastSquareDerivativesReference := fun _ _ tl g => (tl, g)
|}.

(** One FittedStar linked to a RefStar, with two valid measurements. *)
Definition toy_associations : Associations :=
  mkAssociations [0%nat]
    [mkMeasuredStar 0 0 true; mkMeasuredStar 0 0 true]
    [mkFittedStar 2 (Some 0%nat) 0]
    [0%nat].

Definition toy_fit : t unit := mk toy_associations 1 0 2 tt.

(** A fit whose Hessian can be factored only with two measurements or more:
    a matrix is the number of its triplets, and each valid MeasuredStar
    contributes one triplet.  The chi2 values are 2 and 3 for the
    measurements 0 and 1, and 1 for the reference term. *)
Definition frail_External : External := {|
  SparseMatrixD := nat;
  setFromTriplets := fun _ _ l => length l;
  mulByTranspose := fun n => n;
  Chol := bool;
  Chol_compute := fun n => (2 <=? n)%nat;
  Chol_success := fun c => c;
  Chol_solve := fun _ v => v;
  Chol_update := fun c _ _ => (c, 0);
  sqrt := Qsqrt
|}.

Definition frail_Virtual : Virtual unit := {|
  assignIndices := fun _ F => F;
  offsetParams := fun _ F => F;
  measChi2 := fun _ m => ((inject_Z (Z.of_nat m) + 2)%Q, 1);
  refChi2 := fun _ _ => (1%Q, 1);
  getIndicesOfMeasuredStar := fun F m =>
    [indexInMatrix (getFittedStar (associations F)
                      (fittedStar (getMeasuredStar (associations F) m)))];
  leastSquareDerivativesMeasurement := fun F ccd tl g _ =>
    (mkTripletList
       (triplets tl ++
        map (fun _ => mkTriplet 0 (nextFreeIndex tl) 1)
            (filter (fun ms => valid ms = true /\ ccdImage ms = ccd)
                    (measuredStars (associations F))))
       (S (nextFreeIndex tl)), g);
  leastSquareDerivativesReference := fun _ _ tl g => (tl, g)
|}.

(** A fit in which the chi2 of the measurements 0 and 1 is 2 and 3 as long
    as every MeasuredStar is valid and 7 afterwards; the chi2 of the
    reference term is 1. *)
Definition rising_Virtual : Virtual unit := {|
  assignIndices := fun _ F => F;
  offsetParams := fun _ F => F;
  measChi2 := fun F m =>
    if forallb valid (measuredStars (associations F))
    then ((inject_Z (Z.of_nat m) + 2)%Q, 1) else (7%Q, 1);
  refChi2 := fun _ _ => (1%Q, 1);
  getIndicesOfMeasuredStar := fun F m =>
    [indexInMatrix (getFittedStar (associations F)
                      (fittedStar (getMeasuredStar (associations F) m)))];
  leastSquareDerivativesMeasurement := fun _ _ tl g _ => (tl, g);
  leastSquareDerivativesReference := fun _ _ tl g => (tl, g)
|}.

(** A fit whose terms have the chi2 values 2 and 3 (the measurements 0 and
    1) and 1 (the reference term): no two are equal. *)
Definition graded_Virtual : Virtual unit := {|
  assignIndices := fun _ F => F;
  offsetParams := fun _ F => F;
  measChi2 := fun _ m => ((inject_Z (Z.of_nat m) + 2)%Q, 1);
  refChi2 := fun _ _ => (1%Q, 1);
  getIndicesOfMeasuredStar := fun F m =>
    [indexInMatrix (getFittedStar (associations F)
                      (fittedStar (getMeasuredStar (associations F) m)))];
  leastSquareDerivativesMeasurement := fun _ _ tl g _ => (tl, g);
  leastSquareDerivativesReference := fun _ _ tl g => (tl, g)
|}.

(** The state in which the loop of [minimize] is entered for [toy_fit]
    with these chi2 values. *)
Definition graded_loop : @Loop toy_External unit :=
  @mkLoop toy_External unit toy_fit true [0%Q] 6 0 0 [].

(** The state in which the loop of [minimize] is entered for [toy_fit] with
    [frail_External] and [frail_Virtual]: the first factorization has
    succeeded on two triplets. *)
Definition toy_loop : @Loop frail_External unit :=
  @mkLoop frail_External unit (mk toy_associations 1 2 2 tt) true [0%Q] 6 0 0 [].

End FitterSpec.

(** * Properties of the spatial index *)

(** ** Comparisons and conversions *)

Lemma Qlt_bool_iff a b : Qlt_bool a b = true <-> (a < b)%Q.
Proof.
  unfold Qlt_bool. rewrite negb_true_iff.
  split.
  - intros H. apply Qnot_le_lt. intros Hle.
    apply Qle_bool_iff in Hle. congruence.
  - intros H. destruct (Qle_bool b a) eqn:E; [|done].
    apply Qle_bool_iff in E. exfalso. eapply Qlt_not_le; eauto.
Qed.

Lemma Qlt_bool_false a b : Qlt_bool a b = false <-> (b <= a)%Q.
Proof.
  unfold Qlt_bool. rewrite negb_false_iff. apply Qle_bool_iff.
Qed.

Lemma to_int_le (z : Z) : 0 <= z -> to_int z <= z.
Proof.
  intros Hz. unfold to_int.
  pose proof (Z.mod_le (z + 2 ^ 31) (2 ^ 32) ltac:(lia) ltac:(lia)). lia.
Qed.

Module FastFinderProofs.
Import FastFinder FastFinderSpec.

(** ** Sorting *)

#[local] Instance le_x_total : Total le_x.
Proof. intros a b. unfold le_x. destruct (Qlt_le_dec (x b) (x a)); [right|left]; [by apply Qlt_le_weak|done]. Qed.
#[local] Instance le_x_trans : Transitive le_x.
Proof. intros a b c. unfold le_x. apply Qle_trans. Qed.
#[local] Instance le_y_total : Total le_y.
Proof. intros a b. unfold le_y. destruct (Qlt_le_dec (y b) (y a)); [right|left]; [by apply Qlt_le_weak|done]. Qed.
#[local] Instance le_y_trans : Transitive le_y.
Proof. intros a b c. unfold le_y. apply Qle_trans. Qed.

Lemma at_lookup (l : list BaseStar) (i : nat) s : l !! i = Some s -> at_ l i = s.
Proof. intros H. unfold at_. by rewrite nth_lookup, H. Qed.

Lemma lookup_at (l : list BaseStar) (i : nat) : (i < length l)%nat -> l !! i = Some (at_ l i).
Proof.
  intros H. destruct (lookup_lt_is_Some_2 l i H) as [s Hs].
  by rewrite (at_lookup _ _ _ Hs).
Qed.

Lemma StronglySorted_at (R : relation BaseStar) (l : list BaseStar) :
  StronglySorted R l ->
  forall i j, (i < j < length l)%nat -> R (at_ l i) (at_ l j).
Proof.
  induction 1 as [|a l Hl IH Ha]; intros i j Hij; simpl in *; [lia|].
  destruct j as [|j]; [lia|]. destruct i as [|i].
  - unfold at_; simpl. rewrite Forall_forall in Ha. apply Ha.
    apply list_elem_of_In, nth_In. lia.
  - apply (IH i j). lia.
Qed.

Lemma merge_sort_x_sorted (l : list BaseStar) : x_sorted (merge_sort le_x l).
Proof.
  intros i j Hij.
  destruct (decide (i = j)) as [->|Hne]; [apply Qle_refl|].
  apply (StronglySorted_at le_x); [apply StronglySorted_merge_sort; apply _|lia].
Qed.

(** ** The index of the slices *)

Lemma advance_spec fuel (stars : list BaseStar) count xend istar :
  (count - istar <= fuel)%nat -> (istar <= count)%nat ->
  let r := advance fuel stars count xend istar in
  (istar <= r <= count)%nat /\
  (forall k, (istar <= k < r)%nat -> (x (at_ stars k) < xend)%Q) /\
  ((r < count)%nat -> (xend <= x (at_ stars r))%Q).
Proof.
  revert istar. induction fuel as [|fuel IH]; intros istar Hf Hi; simpl.
  - split; [lia|]. split; intros; lia.
  - destruct (Nat.ltb_spec istar count) as [Hlt|Hge]; simpl.
    + destruct (Qlt_bool (x (at_ stars istar)) xend) eqn:E.
      * destruct (IH (S istar) ltac:(lia) ltac:(lia)) as (H1 & H2 & H3).
        split; [lia|]. split; [|done].
        intros k Hk. destruct (decide (k = istar)) as [->|Hne].
        -- by apply Qlt_bool_iff.
        -- apply H2. lia.
      * apply Qlt_bool_false in E.
        split; [lia|]. split; [intros; lia|done].
    + split; [lia|]. split; intros; lia.
Qed.

Lemma advance_bound (stars : list BaseStar) xend istar :
  x_sorted stars -> (istar <= length stars)%nat ->
  (forall k, (k < istar)%nat -> (x (at_ stars k) < xend)%Q) ->
  bound stars xend (advance (length stars - istar) stars (length stars) xend istar) /\
  (istar <= advance (length stars - istar) stars (length stars) xend istar)%nat.
Proof.
  intros Hs Hi Hlow.
  destruct (advance_spec (length stars - istar) stars (length stars) xend istar
              ltac:(lia) Hi) as (H1 & H2 & H3).
  split; [|lia]. split; [lia|]. split.
  - intros k Hk. destruct (Nat.lt_ge_cases k istar); [by apply Hlow|apply H2; lia].
  - intros k Hk. eapply Qle_trans; [apply H3; lia|]. apply Hs. lia.
Qed.

Lemma xend_of_mono xmin xstep i j :
  (0 <= xstep)%Q -> (i <= j)%nat -> (xend_of xmin xstep i <= xend_of xmin xstep j)%Q.
Proof.
  intros Hx Hij. unfold xend_of.
  assert (inject_Z (Z.of_nat i) <= inject_Z (Z.of_nat j))%Q as Hle
    by (rewrite <- Zle_Qle; lia).
  nra.
Qed.

Lemma bound_mono (stars : list BaseStar) xe1 xe2 r1 r2 :
  bound stars xe1 r1 -> bound stars xe2 r2 -> (xe1 <= xe2)%Q -> (r1 <= r2)%nat.
Proof.
  intros (H1 & H2 & H3) (H1' & H2' & H3') Hle.
  destruct (Nat.le_gt_cases r1 r2) as [|Hgt]; [done|exfalso].
  pose proof (H2 r2 Hgt). pose proof (H3' r2 ltac:(lia)). lra.
Qed.

Lemma nth_insert_eq (l : list nat) i v : (i < length l)%nat -> nth i (<[i := v]> l) O = v.
Proof. intros H. by rewrite nth_lookup, list_lookup_insert_eq. Qed.

Lemma nth_insert_ne (l : list nat) i j v : i <> j -> nth j (<[i := v]> l) O = nth j l O.
Proof. intros H. by rewrite !nth_lookup, list_lookup_insert_ne. Qed.

Lemma fill_index_spec n (stars : list BaseStar) xmin xstep :
  x_sorted stars -> (0 <= xstep)%Q ->
  forall islice istar index,
  (islice + n <= length index)%nat -> (istar <= length stars)%nat ->
  (forall k, (k < istar)%nat -> (x (at_ stars k) < xend_of xmin xstep islice)%Q) ->
  let index' := fill_index n stars (length stars) xmin xstep islice istar index in
  length index' = length index /\
  (forall j, (j < islice \/ islice + n <= j)%nat -> nth j index' O = nth j index O) /\
  (forall j, (islice <= j < islice + n)%nat -> bound stars (xend_of xmin xstep j) (nth j index' O)).
Proof.
  intros Hs Hx. induction n as [|n IH]; intros islice istar index Hlen Hi Hlow; simpl.
  - split; [done|]. split; [done|]. intros; lia.
  - set (r := advance _ _ _ _ _).
    destruct (advance_bound stars (xend_of xmin xstep islice) istar Hs Hi Hlow) as [Hb Hr].
    fold r in Hb, Hr.
    destruct (IH (S islice) r (<[islice := r]> index)) as (H1 & H2 & H3).
    + rewrite length_insert. lia.
    + apply Hb.
    + intros k Hk. eapply Qlt_le_trans; [by apply Hb|].
      apply xend_of_mono; [done|lia].
    + rewrite length_insert in H1. split; [done|]. split.
      * intros j Hj. rewrite H2 by lia. apply nth_insert_ne. lia.
      * intros j Hj. destruct (decide (j = islice)) as [->|Hne].
        -- rewrite H2 by lia. rewrite nth_insert_eq by lia. done.
        -- apply H3. lia.
Qed.


(** ** Sorting the slices in y *)

Lemma seg_length {A} (lo hi : nat) (l : list A) :
  (lo <= hi <= length l)%nat -> length (seg lo hi l) = (hi - lo)%nat.
Proof. intros H. unfold seg. rewrite length_take, length_drop. lia. Qed.

Lemma seg_lookup {A} (lo hi : nat) (l : list A) j :
  (j < hi - lo)%nat -> seg lo hi l !! j = l !! (lo + j)%nat.
Proof. intros H. unfold seg. rewrite lookup_take_lt by done. apply lookup_drop. Qed.

Lemma seg_ext {A} (lo hi : nat) (l l' : list A) :
  (forall k, (lo <= k < hi)%nat -> l !! k = l' !! k) -> seg lo hi l = seg lo hi l'.
Proof.
  intros H. apply list_eq. intros j.
  destruct (Nat.lt_ge_cases j (hi - lo)) as [Hj|Hj].
  - rewrite !seg_lookup by done. apply H. lia.
  - unfold seg. rewrite !lookup_take_ge by done. done.
Qed.

Lemma seg_split {A} (lo hi : nat) (l : list A) :
  (lo <= hi)%nat -> l = take lo l ++ seg lo hi l ++ drop hi l.
Proof.
  intros H. unfold seg.
  rewrite <- (take_drop lo l) at 1. f_equal.
  rewrite <- (take_drop (hi - lo) (drop lo l)) at 1. f_equal.
  rewrite drop_drop. f_equal. lia.
Qed.

Lemma sort_range_perm lo hi (l : list BaseStar) :
  (lo <= hi)%nat -> sort_range lo hi l ≡ₚ l.
Proof.
  intros H. unfold sort_range. fold (seg lo hi l).
  rewrite merge_sort_Permutation. by rewrite <- seg_split.
Qed.

Lemma sort_range_length lo hi (l : list BaseStar) :
  (lo <= hi)%nat -> length (sort_range lo hi l) = length l.
Proof. intros H. apply Permutation_length. by apply sort_range_perm. Qed.

Lemma sort_range_outside lo hi (l : list BaseStar) k :
  (lo <= hi <= length l)%nat -> (k < lo \/ hi <= k)%nat -> sort_range lo hi l !! k = l !! k.
Proof.
  intros H Hk. unfold sort_range. fold (seg lo hi l).
  assert (length (merge_sort le_y (seg lo hi l)) = (hi - lo)%nat) as Hlen.
  { rewrite (Permutation_length (merge_sort_Permutation _ _)). by apply seg_length. }
  destruct Hk as [Hk|Hk].
  - rewrite lookup_app_l by (rewrite length_take; lia). by apply lookup_take_lt.
  - rewrite lookup_app_r by (rewrite length_take; lia).
    rewrite length_take, Nat.min_l by lia.
    rewrite lookup_app_r by lia. rewrite Hlen, lookup_drop. f_equal. lia.
Qed.

Lemma sort_range_inside lo hi (l : list BaseStar) :
  (lo <= hi <= length l)%nat -> seg lo hi (sort_range lo hi l) = merge_sort le_y (seg lo hi l).
Proof.
  intros H. unfold sort_range. fold (seg lo hi l).
  assert (length (merge_sort le_y (seg lo hi l)) = (hi - lo)%nat) as Hlen.
  { rewrite (Permutation_length (merge_sort_Permutation _ _)). by apply seg_length. }
  unfold seg at 1.
  rewrite drop_app_length' by (rewrite length_take; lia).
  rewrite take_app_length' by done. done.
Qed.

Lemma borders_grow_le index islice n j j' :
  borders_grow index islice n -> (islice <= j)%nat -> (j <= j')%nat -> (j' <= islice + n)%nat ->
  (nth j index O <= nth j' index O)%nat.
Proof.
  intros Hg Hj Hjj Hj'. induction Hjj as [|j' Hjj IH]; [done|].
  etransitivity; [apply IH; lia|]. apply Hg. lia.
Qed.

Lemma sort_slices_spec n index :
  forall islice (stars : list BaseStar),
  borders_grow index islice n -> (nth (islice + n) index O <= length stars)%nat ->
  let r := sort_slices n index islice stars in
  length r = length stars /\ r ≡ₚ stars /\
  (forall k, (k < nth islice index O \/ nth (islice + n) index O <= k)%nat -> r !! k = stars !! k) /\
  (forall j, (islice <= j < islice + n)%nat ->
     seg (nth j index O) (nth (S j) index O) r =
     merge_sort le_y (seg (nth j index O) (nth (S j) index O) stars)).
Proof.
  induction n as [|n IH]; intros islice stars Hg Hlen; simpl.
  - split; [done|]. split; [done|]. split; [done|]. intros; lia.
  - set (lo := nth islice index O). set (hi := nth (S islice) index O).
    assert (lo <= hi)%nat as Hlohi by (apply Hg; lia).
    assert (hi <= nth (islice + S n) index O)%nat as Hhi
      by (apply (borders_grow_le index islice (S n)); [done|lia..]).
    assert (borders_grow index (S islice) n) as Hg' by (intros j Hj; apply Hg; lia).
    destruct (IH (S islice) (sort_range lo hi stars) Hg') as (H1 & H2 & H3 & H4).
    { rewrite sort_range_length by done. replace (S islice + n)%nat with (islice + S n)%nat by lia. done. }
    replace (S islice + n)%nat with (islice + S n)%nat in * by lia.
    fold hi in H3.
    split; [by rewrite H1, sort_range_length|].
    split; [by rewrite H2, sort_range_perm|].
    split.
    + intros k Hk. rewrite H3 by lia. apply sort_range_outside; lia.
    + intros j Hj. destruct (decide (j = islice)) as [->|Hne].
      * fold lo hi. rewrite <- sort_range_inside by lia.
        apply seg_ext. intros k Hk. apply H3. lia.
      * rewrite H4 by lia. f_equal. apply seg_ext. intros k Hk.
        apply sort_range_outside; [lia|]. right.
        etransitivity; [|apply Hk].
        apply (borders_grow_le index (S islice) n); [done|lia..].
Qed.


(** ** What the constructor establishes *)

Lemma seg_perm_at (l l' : list BaseStar) lo hi :
  (lo <= hi <= length l)%nat -> length l' = length l ->
  seg lo hi l' ≡ₚ seg lo hi l ->
  forall k, (lo <= k < hi)%nat -> exists k', (lo <= k' < hi)%nat /\ at_ l' k = at_ l k'.
Proof.
  intros Hr Hlen Hp k Hk.
  assert (seg lo hi l' !! (k - lo)%nat = Some (at_ l' k)) as Hin.
  { rewrite seg_lookup by lia. replace (lo + (k - lo))%nat with k by lia.
    apply lookup_at. lia. }
  apply list_elem_of_lookup_2 in Hin. rewrite Hp in Hin.
  apply list_elem_of_lookup_1 in Hin. destruct Hin as [j Hj].
  pose proof (lookup_lt_Some _ _ _ Hj) as Hlt. rewrite seg_length in Hlt by done.
  rewrite seg_lookup in Hj by done.
  exists (lo + j)%nat. split; [lia|]. symmetry. by apply at_lookup.
Qed.

Lemma seg_sorted_at (l : list BaseStar) lo hi :
  (lo <= hi <= length l)%nat -> StronglySorted le_y (seg lo hi l) ->
  forall k1 k2, (lo <= k1)%nat -> (k1 <= k2)%nat -> (k2 < hi)%nat ->
  (y (at_ l k1) <= y (at_ l k2))%Q.
Proof.
  intros Hr Hs k1 k2 H1 H12 H2.
  destruct (decide (k1 = k2)) as [->|Hne]; [apply Qle_refl|].
  pose proof (StronglySorted_at le_y _ Hs (k1 - lo) (k2 - lo)) as H.
  rewrite seg_length in H by done. specialize (H ltac:(lia)).
  assert (forall k, (lo <= k < hi)%nat -> at_ (seg lo hi l) (k - lo) = at_ l k) as Hat.
  { intros k Hk. apply at_lookup. rewrite seg_lookup by lia.
    replace (lo + (k - lo))%nat with k by lia. apply lookup_at. lia. }
  rewrite !Hat in H by lia. done.
Qed.

Lemma nth_replicate_0 n i : nth i (replicate n O) O = O.
Proof.
  rewrite nth_lookup. destruct (replicate n O !! i) eqn:E; [|done].
  by apply lookup_replicate in E as [-> _].
Qed.

Lemma xend_of_last xmin xmax n :
  (0 < n)%nat ->
  (xend_of xmin ((xmax - xmin) / inject_Z (Z.of_nat n)) n == xmax)%Q.
Proof.
  intros Hn. unfold xend_of.
  assert (~ inject_Z (Z.of_nat n) == 0)%Q as Hne.
  { intros H. unfold Qeq in H. simpl in H. lia. }
  field. done.
Qed.

Lemma xstep_nonneg xmin xmax n :
  (0 < n)%nat -> (xmin <= xmax)%Q -> (0 <= (xmax - xmin) / inject_Z (Z.of_nat n))%Q.
Proof.
  intros Hn Hle. apply Qle_shift_div_l.
  - change 0%Q with (inject_Z 0). rewrite <- Zlt_Qlt. lia.
  - lra.
Qed.

Lemma xstep_zero xmin xmax n :
  (0 < n)%nat -> ((xmax - xmin) / inject_Z (Z.of_nat n) == 0)%Q -> (xmin == xmax)%Q.
Proof.
  intros Hn H.
  assert (~ inject_Z (Z.of_nat n) == 0)%Q as Hne.
  { intros H0. unfold Qeq in H0. simpl in H0. lia. }
  assert (xmax - xmin == ((xmax - xmin) / inject_Z (Z.of_nat n)) * inject_Z (Z.of_nat n))%Q as Heq
    by (field; done).
  rewrite H in Heq. lra.
Qed.

Lemma new_empty_wf (NXslice : nat) : (1 <= NXslice)%nat -> wf (new [] NXslice).
Proof.
  intros HN. unfold new; simpl.
  split; simpl; try done.
  - rewrite length_replicate. lia.
  - apply (nth_replicate_0 (NXslice + 1) 0).
  - apply nth_replicate_0.
  - intros i Hi. by rewrite !nth_replicate_0.
  - intros i k Hi. rewrite !nth_replicate_0. lia.
  - intros i k Hi. rewrite !nth_replicate_0. lia.
  - intros k Hk. lia.
  - intros i k1 k2 Hi. rewrite !nth_replicate_0. lia.
  - intros _. split; [done|]. apply (nth_replicate_0 (NXslice + 1) 1).
Qed.


Lemma new_wf (List : list BaseStar) (NXslice : nat) : (1 <= NXslice)%nat -> wf (new List NXslice).
Proof.
  intros HN. destruct (decide (length List = 0%nat)) as [H0|Hne].
  { apply nil_length_inv in H0. subst. by apply new_empty_wf. }
  unfold new. rewrite (proj2 (Nat.eqb_neq _ _) Hne). cbv zeta.
  assert (merge_sort le_x List ≡ₚ List) as Hperm0 by apply merge_sort_Permutation.
  assert (length (merge_sort le_x List) = length List) as Hlen0
    by by apply Permutation_length.
  rewrite <- Hlen0 in *.
  pose proof (merge_sort_x_sorted List) as Hsorted.
  set (stars0 := merge_sort le_x List) in *.
  set (xmin := x (at_ stars0 0)).
  set (xmax := x (at_ stars0 (length stars0 - 1))).
  set (nslice := if Qeq_bool xmin xmax then 1%nat else (NXslice `min` length stars0)%nat).
  set (xstep := ((xmax - xmin) / inject_Z (Z.of_nat nslice))%Q).
  set (index1 := <[0%nat:=0%nat]> (replicate (NXslice + 1) 0%nat)).
  set (index2 := fill_index (nslice - 1) stars0 (length stars0) xmin xstep 1 0 index1).
  set (idx := <[nslice := length stars0]> index2).
  assert (xmin <= xmax)%Q as Hxx by (apply Hsorted; lia).
  assert (1 <= nslice <= NXslice)%nat as Hns by (unfold nslice; destruct (Qeq_bool _ _); lia).
  assert (0 <= xstep)%Q as Hxstep by (apply xstep_nonneg; [lia|done]).
  assert (length index1 = (NXslice + 1)%nat) as Hl1
    by (unfold index1; by rewrite length_insert, length_replicate).
  destruct (fill_index_spec (nslice - 1) stars0 xmin xstep Hsorted Hxstep 1 0 index1)
    as (Hl2 & Hsame & Hbound); [lia|lia|intros; lia|].
  fold index2 in Hl2, Hsame, Hbound.
  assert (nth 0 idx O = O) as Hi0.
  { unfold idx. rewrite nth_insert_ne by lia. rewrite Hsame by lia.
    unfold index1. apply nth_insert_eq. rewrite length_replicate. lia. }
  assert (nth nslice idx O = length stars0) as Hin.
  { unfold idx. apply nth_insert_eq. lia. }
  assert (forall j, (j < nslice)%nat -> bound stars0 (xend_of xmin xstep j) (nth j idx O)) as Hb.
  { intros j Hj. unfold idx. rewrite nth_insert_ne by lia.
    destruct (decide (j = 0%nat)) as [->|Hj0].
    - rewrite Hsame by lia. unfold index1. rewrite nth_insert_eq by (rewrite length_replicate; lia).
      split; [lia|]. split; [intros; lia|].
      intros k Hk. unfold xend_of. change (inject_Z (Z.of_nat 0)) with 0%Q.
      rewrite Qmult_0_l, Qplus_0_r. apply Hsorted. lia.
    - apply Hbound. lia. }
  assert (borders_grow idx 0 nslice) as Hgrow.
  { intros j Hj. destruct (decide (S j = nslice)) as [He|Hne'].
    - rewrite He, Hin. destruct (Hb j ltac:(lia)) as [? _]. done.
    - eapply bound_mono; [apply Hb; lia|apply Hb; lia|]. apply xend_of_mono; [done|lia]. }
  destruct (sort_slices_spec nslice idx 0 stars0 Hgrow) as (Hlf & Hpf & _ & Hseg).
  { simpl. lia. }
  set (final := sort_slices nslice idx 0 stars0) in *.
  assert (forall i, (i < nslice)%nat -> (nth i idx O <= nth (S i) idx O <= length stars0)%nat) as Hrange.
  { intros i Hi. split; [apply Hgrow; lia|].
    rewrite <- Hin. apply (borders_grow_le idx 0 nslice); [done|lia..]. }
  assert (forall i k, (i < nslice)%nat -> (nth i idx O <= k < nth (S i) idx O)%nat ->
            exists k', (nth i idx O <= k' < nth (S i) idx O)%nat /\ at_ final k = at_ stars0 k') as Hfrom.
  { intros i k Hi Hk. apply (seg_perm_at stars0 final); [by apply Hrange|done| |done].
    rewrite Hseg by lia. apply merge_sort_Permutation. }
  split; simpl.
  - done.
  - by rewrite Hpf.
  - unfold idx. rewrite length_insert. lia.
  - done.
  - done.
  - intros i Hi. apply Hgrow. lia.
  - intros i k Hi Hk. destruct (Hfrom i k Hi Hk) as (k' & Hk' & ->).
    apply (Hb i Hi). pose proof (Hrange i Hi). lia.
  - intros i k Hi Hk. destruct (Hfrom i k ltac:(lia) Hk) as (k' & Hk' & ->).
    apply (Hb (S i) Hi). lia.
  - intros k Hk.
    assert (at_ final k ∈ stars0) as Hel.
    { rewrite <- Hpf. apply list_elem_of_lookup_2 with k. apply lookup_at. lia. }
    apply list_elem_of_lookup_1 in Hel. destruct Hel as [k' Hk'].
    pose proof (lookup_lt_Some _ _ _ Hk') as Hlt.
    rewrite <- (at_lookup _ _ _ Hk').
    unfold xstep. rewrite xend_of_last by lia.
    apply Hsorted. lia.
  - intros i k1 k2 Hi H1 H12 H2.
    apply (seg_sorted_at final (nth i idx O) (nth (S i) idx O)); try done.
    + rewrite Hlf. by apply Hrange.
    + rewrite Hseg by lia. apply StronglySorted_merge_sort; apply _.
  - done.
  - intros Hz. split; [lia|].
    apply xstep_zero in Hz; [|lia].
    assert (nslice = 1%nat) as Hn1.
    { unfold nslice. destruct (Qeq_bool xmin xmax) eqn:E; [done|].
      apply Qeq_bool_neq in E. done. }
    rewrite <- Hn1 at 1. done.
Qed.


(** ** The two binary searches *)

Lemma half_span_bounds span : 1 < span -> 1 <= Z.quot span 2 <= span - 1.
Proof.
  intros H. rewrite Z.quot_div_nonneg by lia.
  pose proof (Z.div_mod span 2 ltac:(lia)). pose proof (Z.mod_pos_bound span 2 ltac:(lia)). lia.
Qed.

Section Search.
Variable stars : list BaseStar.
Variables b e : Z.
Hypothesis y_sorted : forall k1 k2, b <= k1 -> k1 <= k2 -> k2 < e ->
  (y (deref stars k1) <= y (deref stars k2))%Q.

Lemma locate_y_start_loop_spec YVal fuel : forall Begin span,
  b <= Begin -> 0 <= span -> Begin + span <= e - 1 -> (Z.to_nat span <= fuel)%nat ->
  (forall k, b <= k < Begin -> (y (deref stars k) < YVal)%Q) ->
  let r := locate_y_start_loop fuel stars YVal Begin span in
  Begin <= r <= e - 1 /\ (forall k, b <= k < r -> (y (deref stars k) < YVal)%Q).
Proof.
  induction fuel as [|fuel IH]; intros Begin span Hb Hs He Hf Hlow; simpl.
  - split; [lia|done].
  - destruct (Z.ltb_spec 1 span) as [H1|H1]; [|split; [lia|done]].
    pose proof (half_span_bounds span H1) as Hh.
    destruct (Qlt_bool (y (deref stars (Begin + Z.quot span 2))) YVal) eqn:E.
    + apply Qlt_bool_iff in E.
      destruct (IH (Begin + Z.quot span 2) (span - Z.quot span 2)) as [H2 H3]; try lia.
      * intros k Hk. eapply Qle_lt_trans; [|apply E]. apply y_sorted; lia.
      * split; [lia|done].
    + destruct (IH Begin (span - (span - Z.quot span 2))) as [H2 H3]; try lia; done.
Qed.

Lemma locate_y_end_loop_spec YVal Start fuel : forall End span,
  b <= Start -> End <= e -> 0 <= span -> Start <= End - span - 1 -> (Z.to_nat span <= fuel)%nat ->
  (forall k, End <= k < e -> (YVal < y (deref stars k))%Q) ->
  let r := locate_y_end_loop fuel stars YVal End span in
  Start + 1 <= r <= e /\ (forall k, r <= k < e -> (YVal < y (deref stars k))%Q).
Proof.
  induction fuel as [|fuel IH]; intros End span Hb He Hs Hst Hf Hup; simpl.
  - split; [lia|done].
  - destruct (Z.ltb_spec 1 span) as [H1|H1]; [|split; [lia|done]].
    pose proof (half_span_bounds span H1) as Hh.
    destruct (Qlt_bool YVal (y (deref stars (End - Z.quot span 2)))) eqn:E.
    + apply Qlt_bool_iff in E.
      destruct (IH (End - Z.quot span 2) (span - Z.quot span 2)) as [H2 H3]; try lia.
      * intros k Hk. eapply Qlt_le_trans; [apply E|]. apply y_sorted; lia.
      * split; [lia|done].
    + destruct (IH End (span - (span - Z.quot span 2))) as [H2 H3]; try lia; done.
Qed.




End Search.

(** The loops stop because the span is used up, not the fuel. *)
Lemma locate_y_start_loop_fuel stars YVal fuel fuel' : forall Begin span,
  (Z.to_nat span <= fuel)%nat -> (Z.to_nat span <= fuel')%nat ->
  locate_y_start_loop fuel stars YVal Begin span = locate_y_start_loop fuel' stars YVal Begin span.
Proof.
  revert fuel'. induction fuel as [|fuel IH]; intros fuel' Begin span Hf Hf'.
  - destruct fuel'; simpl; [done|]. destruct (Z.ltb_spec 1 span); [lia|done].
  - destruct fuel' as [|fuel']; simpl.
    + destruct (Z.ltb_spec 1 span); [lia|done].
    + destruct (Z.ltb_spec 1 span) as [H1|H1]; [|done].
      pose proof (half_span_bounds span H1).
      destruct (Qlt_bool _ _); apply IH; lia.
Qed.

Lemma locate_y_end_loop_fuel stars YVal fuel fuel' : forall End span,
  (Z.to_nat span <= fuel)%nat -> (Z.to_nat span <= fuel')%nat ->
  locate_y_end_loop fuel stars YVal End span = locate_y_end_loop fuel' stars YVal End span.
Proof.
  revert fuel'. induction fuel as [|fuel IH]; intros fuel' End span Hf Hf'.
  - destruct fuel'; simpl; [done|]. destruct (Z.ltb_spec 1 span); [lia|done].
  - destruct fuel' as [|fuel']; simpl.
    + destruct (Z.ltb_spec 1 span); [lia|done].
    + destruct (Z.ltb_spec 1 span) as [H1|H1]; [|done].
      pose proof (half_span_bounds span H1).
      destruct (Qlt_bool _ _); apply IH; lia.
Qed.

(** ** The range found in a slice *)

Section Slice.
Variable F : t.
Hypothesis F_wf : wf F.
Variables yStart yEnd : Q.

#[local] Abbreviation null := (Z.of_nat (length (stars F))).
#[local] Abbreviation border i := (Z.of_nat (nth (Z.to_nat i) (index F) O)).

Lemma border_range i : 0 <= i < Z.of_nat (nslice F) -> border i <= border (i + 1) <= null.
Proof.
  intros Hi. replace (Z.to_nat (i + 1)) with (S (Z.to_nat i)) by lia.
  pose proof (wf_index_mono F F_wf (Z.to_nat i) ltac:(lia)).
  assert (nth (S (Z.to_nat i)) (index F) O <= count F)%nat.
  { rewrite <- (wf_index_n F F_wf).
    apply (borders_grow_le (index F) 0 (nslice F)); [|lia..].
    intros j Hj. apply (wf_index_mono F F_wf). lia. }
  rewrite (wf_length F F_wf). lia.
Qed.

Lemma slice_y_sorted i : 0 <= i < Z.of_nat (nslice F) ->
  forall k1 k2, border i <= k1 -> k1 <= k2 -> k2 < border (i + 1) ->
  (y (deref (stars F) k1) <= y (deref (stars F) k2))%Q.
Proof.
  intros Hi k1 k2 H1 H12 H2. unfold deref.
  apply (wf_y F F_wf (Z.to_nat i)); try lia.
  replace (Z.to_nat (i + 1)) with (S (Z.to_nat i)) in H2 by lia. lia.
Qed.

Lemma find_range_in_slice_spec i : 0 <= i < Z.of_nat (nslice F) ->
  let '(c, p) := find_range_in_slice F i yStart yEnd in
  (c = null /\ border i = border (i + 1)) \/
  (border i <= c /\ c <= p /\ p < border (i + 1) /\
   (forall k, border i <= k < c -> (y (deref (stars F) k) < yStart)%Q) /\
   (forall k, p < k < border (i + 1) -> (yEnd < y (deref (stars F) k))%Q)).
Proof.
  intros Hi. unfold find_range_in_slice, locate_y_start, locate_y_end.
  pose proof (border_range i Hi) as Hr.
  pose proof (slice_y_sorted i Hi) as Hy.
  set (b := border i) in *. set (e := border (i + 1)) in *.
  destruct (Z.eqb_spec b null) as [Hbn|Hbn]; simpl.
  { rewrite Z.eqb_refl. left. split; [done|lia]. }
  destruct (Z.eqb_spec b e) as [Hbe|Hbe]; simpl.
  { rewrite Z.eqb_refl. left. done. }
  right.
  destruct (locate_y_start_loop_spec (stars F) b e Hy yStart (Z.to_nat (e - b - 1)) b (e - b - 1))
    as [Hs1 Hs2]; try lia.
  set (c := locate_y_start_loop _ _ _ _ _) in *.
  destruct (Z.eqb_spec c null) as [Hcn|Hcn]; [lia|].
  destruct (locate_y_end_loop_spec (stars F) b e Hy yEnd c (Z.to_nat (e - c - 1)) e (e - c - 1))
    as [He1 He2]; try lia.
  set (r := locate_y_end_loop _ _ _ _ _) in *.
  split; [lia|]. split; [lia|]. split; [lia|]. split; [done|].
  intros k Hk. apply He2. lia.
Qed.


End Slice.


(** ** The iterator *)

Section Scan.
Variable F : t.
Hypothesis F_wf : wf F.
Variables yStart yEnd : Q.

#[local] Abbreviation null := (Z.of_nat (length (stars F))).
#[local] Abbreviation border i := (Z.of_nat (nth (Z.to_nat i) (index F) O)).
#[local] Abbreviation iter c p cs es := (Iterator.mk F null c p cs es yStart yEnd).

Lemma range_of_spec i : 0 <= i < Z.of_nat (nslice F) ->
  forall k, k ∈ range_of F yStart yEnd i -> border i <= k < border (i + 1).
Proof.
  intros Hi k. unfold range_of.
  pose proof (find_range_in_slice_spec F F_wf yStart yEnd i Hi) as H.
  destruct (find_range_in_slice F i yStart yEnd) as [c p].
  destruct (Z.eqb_spec c null) as [Hc|Hc]; [by intros ?%elem_of_nil|].
  destruct H as [[? _]|(H1 & H2 & H3 & _)]; [done|].
  rewrite elem_of_seqZ. lia.
Qed.

Lemma range_of_length i : 0 <= i < Z.of_nat (nslice F) ->
  Z.of_nat (length (range_of F yStart yEnd i)) <= border (i + 1) - border i.
Proof.
  intros Hi. unfold range_of.
  pose proof (find_range_in_slice_spec F F_wf yStart yEnd i Hi) as H.
  pose proof (border_range F F_wf i Hi).
  destruct (find_range_in_slice F i yStart yEnd) as [c p].
  destruct (Z.eqb_spec c null) as [Hc|Hc]; [simpl; lia|].
  destruct H as [[? _]|(H1 & H2 & H3 & _)]; [done|].
  rewrite length_seqZ. lia.
Qed.

Lemma ranges_from_length n : forall i, 0 <= i -> i + Z.of_nat n <= Z.of_nat (nslice F) ->
  Z.of_nat (length (ranges_from F yStart yEnd n i)) <= border (i + Z.of_nat n) - border i.
Proof.
  induction n as [|n IH]; intros i Hi Hn; simpl.
  - replace (i + Z.of_nat 0) with i by lia. lia.
  - rewrite length_app.
    pose proof (range_of_length i ltac:(lia)).
    pose proof (IH (i + 1) ltac:(lia) ltac:(lia)).
    replace (i + 1 + Z.of_nat n) with (i + Z.of_nat (S n)) in * by lia. lia.
Qed.

Lemma ranges_from_count n i : 0 <= i -> i + Z.of_nat n <= Z.of_nat (nslice F) ->
  (length (ranges_from F yStart yEnd n i) <= count F)%nat.
Proof.
  intros Hi Hn. pose proof (ranges_from_length n i Hi Hn) as H.
  destruct n as [|n]; [simpl; lia|].
  pose proof (border_range F F_wf (i + Z.of_nat (S n) - 1) ltac:(lia)) as Hb.
  replace (i + Z.of_nat (S n) - 1 + 1) with (i + Z.of_nat (S n)) in Hb by lia.
  rewrite (wf_length F F_wf) in Hb. lia.
Qed.

Lemma seqZ_first c n : 0 <= n -> seqZ c (n + 1) = c :: seqZ (c + 1) n.
Proof.
  intros Hn. replace (n + 1) with (Z.succ n) by lia.
  rewrite seqZ_cons by lia. f_equal. f_equal; lia.
Qed.

(** Within a range the iterator steps from [c] to [p]. *)
Lemma scan_in_range cs es p (n : nat) : forall c fuel,
  p < null -> p - c = Z.of_nat n -> (n < fuel)%nat ->
  scan_from fuel (iter c p cs es) =
  seqZ c (Z.of_nat n + 1) ++
  scan_from (fuel - (n + 1)) (Iterator.next_slice (S (Z.to_nat (es - cs))) (iter p p cs es)).
Proof.
  induction n as [|n IH]; intros c fuel Hp Hn Hf.
  - destruct fuel as [|fuel]; [lia|]. assert (c = p) as -> by lia.
    simpl scan_from at 1. cbn [Iterator.current Iterator.null_value].
    destruct (Z.eqb_spec p null) as [|_]; [lia|].
    unfold Iterator.incr. cbn [Iterator.current Iterator.pend].
    rewrite Z.eqb_refl. cbn [negb].
    cbn [Iterator.endSlice Iterator.currentSlice].
    replace (S fuel - (0 + 1))%nat with fuel by lia. done.
  - destruct fuel as [|fuel]; [lia|].
    simpl scan_from at 1. cbn [Iterator.current Iterator.null_value].
    destruct (Z.eqb_spec c null) as [|_]; [lia|].
    unfold Iterator.incr. cbn [Iterator.current Iterator.pend].
    destruct (Z.eqb_spec c p) as [|_]; [lia|]. cbn [negb].
    cbn [Iterator.finder Iterator.null_value Iterator.pend Iterator.currentSlice
         Iterator.endSlice Iterator.yStart Iterator.yEnd].
    rewrite (IH (c + 1) fuel) by lia.
    replace (Z.of_nat (S n) + 1) with ((Z.of_nat n + 1) + 1) by lia.
    rewrite (seqZ_first c (Z.of_nat n + 1)) by lia.
    replace (S fuel - (S n + 1))%nat with (fuel - (n + 1))%nat by lia. done.
Qed.

Lemma next_slice_S fuel c p cs es :
  Iterator.next_slice (S fuel) (iter c p cs es) =
  if es <=? cs + 1 then iter null p (cs + 1) es
  else
    let '(c', p') := find_range_in_slice F (cs + 1) yStart yEnd in
    if c' =? null then Iterator.next_slice fuel (iter c' p' (cs + 1) es)
    else iter c' p' (cs + 1) es.
Proof. reflexivity. Qed.

Lemma scan_from_null fuel p cs es : scan_from fuel (iter null p cs es) = [].
Proof. destruct fuel; simpl; [done|]. by rewrite Z.eqb_refl. Qed.

(** From the end of a range the iterator goes through the slices that are
    left and yields their ranges. *)
Lemma next_slice_scan es : es <= Z.of_nat (nslice F) ->
  forall (m fuel : nat) c p cs fuel2,
  -1 <= cs -> (Z.to_nat (es - cs) <= m)%nat -> (Z.to_nat (es - cs) < fuel)%nat ->
  (length (ranges_from F yStart yEnd (Z.to_nat (es - cs - 1)) (cs + 1)) < fuel2)%nat ->
  scan_from fuel2 (Iterator.next_slice fuel (iter c p cs es)) =
  ranges_from F yStart yEnd (Z.to_nat (es - cs - 1)) (cs + 1).
Proof.
  intros Hes. induction m as [|m IH]; intros fuel c p cs fuel2 Hcs Hm Hf Hf2.
  - destruct fuel as [|fuel]; [lia|]. rewrite next_slice_S.
    destruct (Z.leb_spec es (cs + 1)) as [_|]; [|lia].
    replace (Z.to_nat (es - cs - 1)) with O by lia.
    apply scan_from_null.
  - destruct fuel as [|fuel]; [lia|]. rewrite next_slice_S.
    destruct (Z.leb_spec es (cs + 1)) as [Hle|Hgt].
    { replace (Z.to_nat (es - cs - 1)) with O by lia. apply scan_from_null. }
    destruct (Z.to_nat (es - cs - 1)) as [|n] eqn:En; [lia|].
    cbn [ranges_from] in Hf2 |- *. rewrite length_app in Hf2.
    pose proof (find_range_in_slice_spec F F_wf yStart yEnd (cs + 1) ltac:(lia)) as Hfr.
    pose proof (border_range F F_wf (cs + 1) ltac:(lia)) as Hbr.
    unfold range_of in *.
    destruct (find_range_in_slice F (cs + 1) yStart yEnd) as [c' p'].
    assert (n = Z.to_nat (es - (cs + 1) - 1)) as -> by lia.
    destruct (Z.eqb_spec c' null) as [Hn|Hn].
    + rewrite app_nil_l. change (length []) with O in Hf2. apply IH; lia.
    + destruct Hfr as [[? _]|(H1 & H2 & H3 & _)]; [done|].
      rewrite length_seqZ in Hf2.
      rewrite (scan_in_range (cs + 1) es p' (Z.to_nat (p' - c'))) by lia.
      replace (Z.of_nat (Z.to_nat (p' - c')) + 1) with (p' - c' + 1) by lia.
      f_equal. apply IH; lia.
Qed.

End Scan.


(** ** The scan *)

Section ScanSpec.
Variable F : t.
Hypothesis F_wf : wf F.
Variable Where : Point.
Variable MaxDist : Q.

#[local] Abbreviation null := (Z.of_nat (length (stars F))).

Lemma startSlice_nonneg : 0 <= startSlice F Where MaxDist.
Proof. unfold startSlice. destruct (negb _); lia. Qed.

Lemma endSlice_le : endSlice F Where MaxDist <= Z.of_nat (nslice F).
Proof.
  unfold endSlice. destruct (Qeq_bool (xstep F) 0) eqn:E; simpl.
  - apply Qeq_bool_iff in E. destruct (wf_one_slice F F_wf E). lia.
  - pose proof (to_int_le (Z.of_nat (nslice F)) ltac:(lia)). lia.
Qed.

Lemma begin_scan_slices :
  begin_scan F Where MaxDist =
  if (to_int (Z.of_nat (nslice F)) <=? startSlice F Where MaxDist) || (endSlice F Where MaxDist <? 0)
  then Iterator.mk F null null null 0 (endSlice F Where MaxDist) 0 0
  else Iterator.next_slice
         (S (Z.to_nat (endSlice F Where MaxDist - (startSlice F Where MaxDist - 1))))
         (Iterator.mk F null null null (startSlice F Where MaxDist - 1) (endSlice F Where MaxDist)
            (y Where - MaxDist) (y Where + MaxDist)).
Proof.
  unfold begin_scan, Iterator.new, startSlice, endSlice.
  destruct (negb (Qeq_bool (xstep F) 0)); cbn [fst snd];
    (destruct (_ || _); [done|]);
    unfold Iterator.incr; cbn [Iterator.current Iterator.pend Iterator.endSlice Iterator.currentSlice];
    by rewrite Z.eqb_refl.
Qed.

(** The loop over the iterator yields the ranges of the visited slices, and
    [count + 1] turns are enough for it to reach the end. *)
Lemma scan_from_visited fuel : (count F < fuel)%nat ->
  scan_from fuel (begin_scan F Where MaxDist) = visited_ranges F Where MaxDist.
Proof.
  intros Hf. rewrite begin_scan_slices. unfold visited_ranges.
  pose proof startSlice_nonneg as Hss. pose proof endSlice_le as Hes.
  pose proof (to_int_le (Z.of_nat (nslice F)) ltac:(lia)) as Hns.
  set (ss := startSlice F Where MaxDist) in *. set (es := endSlice F Where MaxDist) in *.
  destruct (_ || _) eqn:E.
  { destruct fuel; simpl; [done|]. by rewrite Z.eqb_refl. }
  apply orb_false_iff in E as [E1 E2].
  apply Z.leb_gt in E1. apply Z.ltb_ge in E2.
  rewrite (next_slice_scan F F_wf _ _ es Hes (Z.to_nat (es - (ss - 1)))); try lia.
  - replace (ss - 1 + 1) with ss by lia. f_equal. lia.
  - replace (ss - 1 + 1) with ss by lia.
    replace (es - (ss - 1) - 1) with (es - ss) by lia.
    pose proof (ranges_from_count F F_wf (y Where - MaxDist) (y Where + MaxDist)
                  (Z.to_nat (es - ss)) ss). lia.
Qed.

Lemma scan_visited : scan F Where MaxDist = visited_ranges F Where MaxDist.
Proof. apply scan_from_visited. lia. Qed.

Lemma elem_of_ranges_from yS yE n : forall i k,
  k ∈ ranges_from F yS yE n i <-> exists j, i <= j < i + Z.of_nat n /\ k ∈ range_of F yS yE j.
Proof.
  induction n as [|n IH]; intros i k; simpl.
  - split; [by intros ?%elem_of_nil|]. intros (j & Hj & _). lia.
  - rewrite elem_of_app, IH. split.
    + intros [H|(j & Hj & H)]; [exists i|exists j]; split; try done; lia.
    + intros (j & Hj & H). destruct (decide (j = i)) as [->|Hne]; [by left|].
      right. exists j. split; [lia|done].
Qed.

Lemma elem_of_visited_ranges k :
  k ∈ visited_ranges F Where MaxDist <->
  exists i, visited F Where MaxDist i /\ k ∈ range_of F (y Where - MaxDist) (y Where + MaxDist) i.
Proof.
  unfold visited_ranges, visited.
  destruct (_ || _) eqn:E.
  - split; [by intros ?%elem_of_nil|]. by intros (i & [? _] & _).
  - rewrite elem_of_ranges_from.
    apply orb_false_iff in E as [E1 E2]. apply Z.leb_gt in E1. apply Z.ltb_ge in E2.
    split; intros (i & Hi & Hk); exists i; (split; [|done]).
    + split; [done|lia].
    + lia.
Qed.

Lemma visited_slice i : visited F Where MaxDist i -> 0 <= i < Z.of_nat (nslice F).
Proof.
  intros [_ H]. pose proof startSlice_nonneg. pose proof endSlice_le. lia.
Qed.

End ScanSpec.


(** ** What a range holds *)

Section Complete.
Variable F : t.
Hypothesis F_wf : wf F.

#[local] Abbreviation null := (Z.of_nat (length (stars F))).
#[local] Abbreviation border i := (Z.of_nat (nth (Z.to_nat i) (index F) O)).




End Complete.


(** ** The order of a scan *)






(** ** FindClosest *)

Lemma next_slice_finder fuel : forall it,
  Iterator.finder (Iterator.next_slice fuel it) = Iterator.finder it /\
  Iterator.null_value (Iterator.next_slice fuel it) = Iterator.null_value it.
Proof.
  induction fuel as [|fuel IH]; intros it; [done|].
  cbn [Iterator.next_slice].
  destruct (_ <=? _); [done|].
  destruct (find_range_in_slice _ _ _ _) as [c p].
  destruct (_ =? _); [|done]. apply (IH (Iterator.mk _ _ _ _ _ _ _ _)).
Qed.

Lemma incr_finder it :
  Iterator.finder (Iterator.incr it) = Iterator.finder it /\
  Iterator.null_value (Iterator.incr it) = Iterator.null_value it.
Proof. unfold Iterator.incr. destruct (negb _); [done|]. apply next_slice_finder. Qed.

Lemma FindClosest_loop_closest Where SkipIt fuel : forall it pbest minDist2,
  FindClosest_loop fuel Where SkipIt it pbest minDist2 =
  closest Where SkipIt (map (deref (stars (Iterator.finder it))) (scan_from fuel it)) pbest minDist2.
Proof.
  induction fuel as [|fuel IH]; intros it pbest minDist2; simpl; [done|].
  unfold Iterator.star. destruct (_ =? _); simpl; [done|].
  destruct (incr_finder it) as [Hf _].
  fold (skipped SkipIt (deref (stars (Iterator.finder it)) (Iterator.current it))).
  destruct (skipped _ _); [|destruct (Qlt_bool _ _)]; rewrite IH, Hf; done.
Qed.

Lemma begin_scan_finder F Where MaxDist : Iterator.finder (begin_scan F Where MaxDist) = F.
Proof.
  unfold begin_scan, Iterator.new. destruct (_ || _); [done|].
  apply (incr_finder (Iterator.mk _ _ _ _ _ _ _ _)).
Qed.

(** What the selection returns. *)
Lemma closest_spec Where SkipIt l : forall (pbest : option BaseStar) minDist2,
  match pbest with Some b => minDist2 = Dist2 Where b | None => True end ->
  match closest Where SkipIt l pbest minDist2 with
  | Some r =>
      (Dist2 Where r <= minDist2)%Q /\
      (pbest = Some r \/ (r ∈ l /\ skipped SkipIt r = false /\ (Dist2 Where r < minDist2)%Q)) /\
      (forall c, c ∈ l -> skipped SkipIt c = false -> (Dist2 Where r <= Dist2 Where c)%Q)
  | None =>
      pbest = None /\
      (forall c, c ∈ l -> skipped SkipIt c = false -> (minDist2 <= Dist2 Where c)%Q)
  end.
Proof.
  induction l as [|s l IH]; intros pbest minDist2 Hb; simpl.
  - destruct pbest as [b|].
    + subst. split; [apply Qle_refl|]. split; [by left|]. by intros c ?%elem_of_nil.
    + split; [done|]. by intros c ?%elem_of_nil.
  - destruct (skipped SkipIt s) eqn:Es.
    { specialize (IH pbest minDist2 Hb).
      destruct (closest Where SkipIt l pbest minDist2) as [r|].
      - destruct IH as (H1 & H2 & H3). split; [done|]. split.
        + destruct H2 as [H2|(H2 & H2' & H2'')]; [by left|right].
          split; [by apply elem_of_cons; right|done].
        + intros c Hc Hs. apply elem_of_cons in Hc as [->|Hc]; [congruence|by apply H3].
      - destruct IH as (H1 & H3). split; [done|].
        intros c Hc Hs. apply elem_of_cons in Hc as [->|Hc]; [congruence|by apply H3]. }
    destruct (Qlt_bool (Dist2 Where s) minDist2) eqn:El.
    + apply Qlt_bool_iff in El.
      specialize (IH (Some s) (Dist2 Where s) eq_refl).
      destruct (closest Where SkipIt l (Some s) (Dist2 Where s)) as [r|]; [|by destruct IH].
      destruct IH as (H1 & H2 & H3).
      split; [lra|]. split.
      * right. destruct H2 as [H2|(H2 & H2' & H2'')].
        -- inversion H2; subst. split; [by apply elem_of_cons; left|done].
        -- split; [by apply elem_of_cons; right|]. split; [done|lra].
      * intros c Hc Hs. apply elem_of_cons in Hc as [->|Hc]; [done|by apply H3].
    + apply Qlt_bool_false in El.
      specialize (IH pbest minDist2 Hb).
      destruct (closest Where SkipIt l pbest minDist2) as [r|].
      * destruct IH as (H1 & H2 & H3). split; [done|]. split.
        -- destruct H2 as [H2|(H2 & H2' & H2'')]; [by left|right].
           split; [by apply elem_of_cons; right|done].
        -- intros c Hc Hs. apply elem_of_cons in Hc as [->|Hc]; [lra|by apply H3].
      * destruct IH as (H1 & H3). split; [done|].
        intros c Hc Hs. apply elem_of_cons in Hc as [->|Hc]; [done|by apply H3].
Qed.

Lemma FindClosest_closest F Where MaxDist SkipIt :
  FindClosest F Where MaxDist SkipIt =
  if (count F =? 0)%nat then None
  else closest Where SkipIt (candidates F Where MaxDist) None (MaxDist * MaxDist)%Q.
Proof.
  unfold FindClosest, candidates, scan. destruct (count F =? 0)%nat; [done|].
  rewrite FindClosest_loop_closest, begin_scan_finder.
  unfold Iterator.star. simpl scan_from.
  destruct (_ =? _); done.
Qed.


(** ** The claims on the spatial index *)

Lemma scan_offsets F Where MaxDist k :
  wf F -> k ∈ scan F Where MaxDist -> 0 <= k < Z.of_nat (count F).
Proof.
  intros F_wf. rewrite (scan_visited F F_wf), (elem_of_visited_ranges F).
  intros (i & Hv & Hk).
  pose proof (visited_slice F F_wf Where MaxDist i Hv) as Hi.
  pose proof (range_of_spec F F_wf _ _ i Hi k Hk).
  pose proof (border_range F F_wf i Hi) as Hb.
  rewrite (wf_length F F_wf) in Hb. lia.
Qed.

Lemma range_of_seqZ F yS yE i : exists c n, range_of F yS yE i = seqZ c n.
Proof.
  unfold range_of. destruct (find_range_in_slice F i yS yE) as [c p].
  destruct (_ =? _); [by exists 0, 0|by eexists _, _].
Qed.




(** C10: for every star list, query point, [MaxDist] and predicate,
    [FindClosest] returns a star only if its squared distance to the query
    point is strictly less than [MaxDist]², the star returned is one that
    the scan yielded and the predicate did not exclude, no such star is
    closer, and when no scanned star lies strictly within [MaxDist] the
    result is none; the loop of [FindClosest] ends within [count + 1]
    turns. *)
Theorem FindClosest_nearest (List : list BaseStar) (NXslice : nat) (Where : Point)
    (MaxDist : Q) (SkipIt : option (BaseStar -> bool)) :
  (1 <= NXslice)%nat ->
  Z.of_nat (length List) < 2 ^ 32 -> Z.of_nat NXslice + 1 < 2 ^ 32 ->
  let F := new List NXslice in
  match FindClosest F Where MaxDist SkipIt with
  | Some r =>
      (Dist2 Where r < MaxDist * MaxDist)%Q /\
      r ∈ candidates F Where MaxDist /\ skipped SkipIt r = false /\
      (forall c : BaseStar, c ∈ candidates F Where MaxDist -> skipped SkipIt c = false ->
         (Dist2 Where r <= Dist2 Where c)%Q)
  | None =>
      forall c : BaseStar, c ∈ candidates F Where MaxDist -> skipped SkipIt c = false ->
        (MaxDist * MaxDist <= Dist2 Where c)%Q
  end /\
  ((forall c : BaseStar, c ∈ candidates F Where MaxDist -> (MaxDist * MaxDist <= Dist2 Where c)%Q) ->
   FindClosest F Where MaxDist SkipIt = None) /\
  (forall fuel, (count F < fuel)%nat -> count F <> 0%nat ->
     FindClosest_loop fuel Where SkipIt (begin_scan F Where MaxDist) None
       (MaxDist * MaxDist)%Q = FindClosest F Where MaxDist SkipIt).
Proof.
  intros HN _ _ F.
  assert (wf F) as F_wf by by apply new_wf.
  cut (forall P Q R : Prop, P -> (P -> Q) -> R -> P /\ Q /\ R); [|tauto].
  intros Hcut. apply Hcut; clear Hcut; cycle 2.
  { intros fuel Hfuel H0. rewrite FindClosest_closest, FindClosest_loop_closest.
    rewrite begin_scan_finder, (scan_from_visited F F_wf) by done.
    rewrite (proj2 (Nat.eqb_neq _ _) H0). unfold candidates.
    by rewrite (scan_visited F F_wf). }
  assert (match FindClosest F Where MaxDist SkipIt with
          | Some r =>
              (Dist2 Where r < MaxDist * MaxDist)%Q /\
              r ∈ candidates F Where MaxDist /\ skipped SkipIt r = false /\
              (forall c : BaseStar, c ∈ candidates F Where MaxDist -> skipped SkipIt c = false ->
                 (Dist2 Where r <= Dist2 Where c)%Q)
          | None =>
              forall c : BaseStar, c ∈ candidates F Where MaxDist -> skipped SkipIt c = false ->
                (MaxDist * MaxDist <= Dist2 Where c)%Q
          end) as Hmain.
  { rewrite FindClosest_closest.
    destruct (Nat.eqb_spec (count F) 0) as [H0|H0].
    - intros c Hc. unfold candidates in Hc. apply list_elem_of_fmap in Hc as (k & _ & Hk).
      pose proof (scan_offsets F Where MaxDist k F_wf Hk). lia.
    - pose proof (closest_spec Where SkipIt (candidates F Where MaxDist) None
                    (MaxDist * MaxDist)%Q I) as H.
      destruct (closest _ _ _ _ _) as [r|].
      + destruct H as (H1 & [H2|(H2 & H3 & H4)] & H5); [done|]. done.
      + by destruct H. }
  - exact Hmain.
  - intros Hmain' Hall. destruct (FindClosest F Where MaxDist SkipIt) as [r|]; [|done].
    destruct Hmain' as (H1 & H2 & _). specialize (Hall r H2). lra.
Qed.

Lemma FindClosest_nearest_witness :
  (1 <= 2)%nat /\ Z.of_nat (length stars3) < 2 ^ 32 /\ Z.of_nat 2 + 1 < 2 ^ 32 /\
  FindClosest (new stars3 2) (mkPoint 11 0) 2 None = Some (mkStar (mkPoint 10 0) 1) /\
  ((forall c : BaseStar, c ∈ candidates (new stars3 2) (mkPoint 11 0) 1 ->
      (1 * 1 <= Dist2 (mkPoint 11 0) c)%Q) ->
   FindClosest (new stars3 2) (mkPoint 11 0) 1 None = None).
Proof.
  split; [lia|]. split; [simpl; lia|]. split; [lia|]. split; [by vm_compute|].
  apply (FindClosest_nearest stars3 2 (mkPoint 11 0) 1 None); [lia|simpl; lia|lia].
Defined.

End FastFinderProofs.

(** * Properties of [MatchConditions] *)

Module MatchConditionsProofs.
Import MatchConditions.

(** C9: a default-constructed [MatchConditions] has nStarsList1 = 70,
    nStarsList2 = 70, maxTrialCount = 4, nSigmas = 3.0, maxShiftX = 50,
    maxShiftY = 50, sizeRatio = 1.0, deltaSizeRatio = 0.1,
    minMatchRatio = 1/3 and algorithm = 2. *)
Theorem default_values :
  nStarsList1 new = 70 /\ nStarsList2 new = 70 /\ maxTrialCount new = 4 /\
  nSigmas new = 3%Q /\ maxShiftX new = 50%Q /\ maxShiftY new = 50%Q /\
  sizeRatio new = 1%Q /\ deltaSizeRatio new = (1 # 10)%Q /\
  minMatchRatio new = (1 # 3)%Q /\ algorithm new = 2.
Proof. repeat split; reflexivity. Qed.

End MatchConditionsProofs.

(** * Properties of the fitter core *)

Module FitterProofs.
Import Fitter FitterSpec.

(** ** The names of the two chi2 files *)

Section FileNames.
Local Open Scope string_scope.

Lemma rfind_from_absent c s : contains c s = false -> forall pos, rfind_from c s pos = None.
Proof.
  induction s as [|a s IH]; simpl; intros H pos; [done|].
  apply orb_false_iff in H as [Ha Hs]. by rewrite IH, Ha.
Qed.

Lemma rfind_from_range c s : forall pos r,
  rfind_from c s pos = Some r -> (pos <= r < pos + String.length s)%nat.
Proof.
  induction s as [|a s IH]; simpl; intros pos r H; [done|].
  destruct (rfind_from c s (S pos)) as [r'|] eqn:E.
  - inversion H; subst. apply IH in E. lia.
  - destruct (Ascii.eqb a c); [|done]. inversion H; subst. lia.
Qed.

Lemma rfind_from_present c s : contains c s = true -> forall pos, is_Some (rfind_from c s pos).
Proof.
  induction s as [|a s IH]; simpl; intros H pos; [done|].
  destruct (rfind_from c s (S pos)) as [r'|] eqn:E; [done|].
  apply orb_true_iff in H as [Ha|Hs]; [by rewrite Ha|].
  destruct (IH Hs (S pos)) as [r Hr]. congruence.
Qed.

(** The last occurrence in [pre ++ c :: post] when [c] is not in [post]. *)
Lemma rfind_from_last c pre post : contains c post = false ->
  forall pos, rfind_from c (pre ++ String c post) pos = Some (pos + String.length pre)%nat.
Proof.
  intros Hpost. induction pre as [|a pre IH]; simpl; intros pos.
  - rewrite rfind_from_absent by done. rewrite Ascii.eqb_refl. f_equal. lia.
  - rewrite IH. f_equal. lia.
Qed.

(** Beyond [pre], the search only sees what follows. *)
Lemma rfind_from_app c pre rest : forall pos,
  rfind_from c (pre ++ rest) pos =
  match rfind_from c rest (pos + String.length pre) with
  | Some r => Some r
  | None => rfind_from c pre pos
  end.
Proof.
  induction pre as [|a pre IH]; simpl; intros pos.
  - rewrite Nat.add_0_r. by destruct (rfind_from c rest pos).
  - rewrite IH. replace (S pos + String.length pre)%nat with (pos + S (String.length pre))%nat by lia.
    by destruct (rfind_from c rest _).
Qed.

Lemma String_insert_app pre str rest :
  String_insert (String.length pre) str (pre ++ rest) = pre ++ str ++ rest.
Proof. induction pre as [|a pre IH]; simpl; [done|]. by rewrite IH. Qed.

Lemma String_append_nil_r (s : string) : s ++ "" = s.
Proof. induction s as [|a s IH]; simpl; [done|]. by rewrite IH. Qed.

Lemma String_insert_end str s : String_insert (String.length s) str s = s ++ str.
Proof.
  induction s as [|a s IH]; simpl.
  - apply String_append_nil_r.
  - by rewrite IH.
Qed.

Lemma String_length_app (s1 s2 : string) :
  String.length (s1 ++ s2) = (String.length s1 + String.length s2)%nat.
Proof. induction s1 as [|a s1 IH]; simpl; [done|]. by rewrite IH. Qed.

Lemma rfind_slash_before c pre post : contains "/" post = false ->
  match rfind "/" (pre ++ String c post) with
  | Some r => (r <= String.length pre)%nat
  | None => True
  end.
Proof.
  intros H. unfold rfind. rewrite rfind_from_app. simpl rfind_from at 1.
  rewrite rfind_from_absent by done.
  destruct (Ascii.eqb c "/"); [simpl; lia|].
  destruct (rfind_from "/" pre 0) as [r|] eqn:E; [|done].
  apply rfind_from_range in E. lia.
Qed.

Lemma rfind_slash_after c pre post : contains "/" post = true ->
  exists r, rfind "/" (pre ++ String c post) = Some r /\ (String.length pre < r)%nat.
Proof.
  intros H. unfold rfind. rewrite rfind_from_app. simpl.
  destruct (rfind_from_present "/" post H (S (String.length pre))) as [r Hr].
  rewrite Hr. exists r. split; [done|]. apply rfind_from_range in Hr. lia.
Qed.

(** C7, as amended: [saveChi2Contributions] inserts "-meas" and "-ref"
    immediately before the final '.' of the base name when no '/' follows
    that '.', and at the end of the base name otherwise, that is when a '/'
    follows the final '.' or the base name has no '.'. *)
Theorem saveChi2Contributions_names (pre post : string) :
  contains "." post = false ->
  (contains "/" post = false ->
   saveChi2Contributions (pre ++ "." ++ post) =
   (pre ++ "-meas" ++ "." ++ post, pre ++ "-ref" ++ "." ++ post)) /\
  (contains "/" post = true ->
   saveChi2Contributions (pre ++ "." ++ post) =
   ((pre ++ "." ++ post) ++ "-meas", (pre ++ "." ++ post) ++ "-ref")) /\
  saveChi2Contributions post = (post ++ "-meas", post ++ "-ref").
Proof.
  intros Hdot. split; [|split].
  - intros Hslash. unfold saveChi2Contributions.
    change ("." ++ post) with (String "." post).
    pose proof (rfind_slash_before "." pre post Hslash) as Hs.
    unfold rfind at 1 3. rewrite rfind_from_last by done. simpl Nat.add.
    destruct (rfind "/" (pre ++ String "." post)) as [r|].
    + destruct (Nat.ltb_spec (String.length pre) r); [lia|].
      by rewrite !String_insert_app.
    + by rewrite !String_insert_app.
  - intros Hslash. unfold saveChi2Contributions.
    change ("." ++ post) with (String "." post).
    destruct (rfind_slash_after "." pre post Hslash) as (r & Hr & Hlt).
    unfold rfind at 1 3. rewrite rfind_from_last by done. simpl Nat.add.
    rewrite Hr. destruct (Nat.ltb_spec (String.length pre) r); [|lia].
    by rewrite !String_insert_end.
  - unfold saveChi2Contributions, rfind. rewrite rfind_from_absent by done.
    by rewrite !String_insert_end.
Qed.

Lemma saveChi2Contributions_names_witness :
  contains "." "csv" = false /\
  (contains "/" "csv" = false ->
   saveChi2Contributions ("dir/chi2" ++ "." ++ "csv") =
   ("dir/chi2" ++ "-meas" ++ "." ++ "csv", "dir/chi2" ++ "-ref" ++ "." ++ "csv")).
Proof.
  split; [reflexivity|].
  apply (saveChi2Contributions_names "dir/chi2" "csv"). reflexivity.
Defined.

(** C7, as stated, fails: in "a.b/c" the final '.' comes before the last
    '/', and the suffixes go to the end instead of before the '.'. *)
Lemma saveChi2Contributions_dot_in_directory :
  saveChi2Contributions "a.b/c" = ("a.b/c-meas", "a.b/c-ref") /\
  saveChi2Contributions "a.b/c" <> ("a-meas.b/c", "a-ref.b/c").
Proof. split; [reflexivity|discriminate]. Qed.

End FileNames.


(** ** The vector [affectedParams] *)

Lemma drop_it_true (affected : list Z) (indices : list nat) :
  drop_it affected indices = true <-> forall i, i ∈ indices -> affected !!! i = 0.
Proof.
  unfold drop_it. rewrite forallb_forall. split.
  - intros H i Hi. apply list_elem_of_In in Hi. apply H in Hi. lia.
  - intros H i Hi. apply list_elem_of_In in Hi. apply H in Hi. lia.
Qed.

Lemma drop_it_false (affected : list Z) (indices : list nat) :
  drop_it affected indices = false <-> exists i, i ∈ indices /\ affected !!! i <> 0.
Proof.
  unfold drop_it. induction indices as [|j l IH]; simpl.
  - split; [done|]. by intros (i & ?%elem_of_nil & _).
  - rewrite andb_false_iff, IH. split.
    + intros [H|(i & Hi & Hne)].
      * exists j. split; [by apply elem_of_cons; left|lia].
      * exists i. split; [by apply elem_of_cons; right|done].
    + intros (i & Hi & Hne). apply elem_of_cons in Hi as [->|Hi].
      * left. lia.
      * right. by exists i.
Qed.

Lemma lookup_total_alter_succ (a : list Z) (i j : nat) :
  alter Z.succ i a !!! j =
  if decide (i = j /\ (i < length a)%nat) then Z.succ (a !!! j) else a !!! j.
Proof.
  rewrite !list_lookup_total_alt.
  destruct (decide (i = j /\ (i < length a)%nat)) as [[-> Hlt]|Hn].
  - rewrite list_lookup_alter_eq. destruct (lookup_lt_is_Some_2 a j Hlt) as [z Hz]. rewrite Hz. reflexivity.
  - destruct (decide (i = j)) as [->|Hne].
    + rewrite list_lookup_alter_eq. rewrite (lookup_ge_None_2 a j); [done|]. lia.
    + by rewrite list_lookup_alter_ne.
Qed.

Lemma mark_spec (indices : list nat) : forall affected : list Z,
  length (mark affected indices) = length affected /\
  (Forall (fun z => 0 <= z) affected -> Forall (fun z => 0 <= z) (mark affected indices)) /\
  (forall j, affected !!! j <= mark affected indices !!! j) /\
  (forall i, i ∈ indices -> (i < length affected)%nat ->
     affected !!! i < mark affected indices !!! i).
Proof.
  unfold mark. induction indices as [|i l IH]; intros affected; simpl.
  - split; [done|]. split; [done|]. split; [intros; lia|]. by intros i ?%elem_of_nil.
  - destruct (IH (alter Z.succ i affected)) as (H1 & H2 & H3 & H4).
    rewrite length_alter in H1, H4.
    assert (forall j, affected !!! j <= alter Z.succ i affected !!! j) as Hle.
    { intros j. rewrite lookup_total_alter_succ. destruct (decide _); lia. }
    split; [done|]. split; [|split].
    + intros Hnn. apply H2. rewrite Forall_lookup in Hnn |- *.
      intros j z Hj. destruct (decide (i = j)) as [->|Hne].
      * rewrite list_lookup_alter_eq in Hj. destruct (affected !! j) as [z'|] eqn:E; [|done].
        simpl in Hj. inversion Hj; subst. specialize (Hnn j z' E). simpl in Hnn. lia.
      * rewrite list_lookup_alter_ne in Hj by done. by apply (Hnn j).
    + intros j. specialize (Hle j). specialize (H3 j). lia.
    + intros j Hj Hlt. apply elem_of_cons in Hj as [->|Hj].
      * specialize (H3 i). rewrite lookup_total_alter_succ in H3.
        destruct (decide _) as [_|Hn]; [lia|]. exfalso. apply Hn. split; [done|lia].
      * specialize (Hle j). specialize (H4 j Hj Hlt). lia.
Qed.

Lemma ForallOrdPairs_snoc {A} (R : A -> A -> Prop) (l : list A) (c : A) :
  ForallOrdPairs R l -> (forall a, a ∈ l -> R a c) -> ForallOrdPairs R (l ++ [c]).
Proof.
  induction 1 as [|a l Ha Hl IH]; intros Hc; simpl.
  - constructor; constructor.
  - constructor.
    + apply List.Forall_app. split; [done|].
      constructor; [|constructor]. apply Hc. by apply elem_of_cons; left.
    + apply IH. intros b Hb. apply Hc. by apply elem_of_cons; right.
Qed.

Lemma wrap32_succ n : wrap32 (wrap32 (Z.of_nat n) + 1) = wrap32 (Z.of_nat (S n)).
Proof.
  unfold wrap32. rewrite Zplus_mod_idemp_l. f_equal. lia.
Qed.

(** ** The loop of [findOutliers] *)

#[local] Instance le_chi2_total : Total le_chi2.
Proof.
  intros a b. unfold le_chi2.
  destruct (Qlt_le_dec (chi2 b) (chi2 a)); [right|left]; [by apply Qlt_le_weak|done].
Qed.
#[local] Instance le_chi2_trans : Transitive le_chi2.
Proof. intros a b c. unfold le_chi2. apply Qle_trans. Qed.


Section FindOutliers.
Context {E : External} {M : Type} {V : Virtual M}.
Variable F : t M.
Variables msOutliers0 fsOutliers0 : list nat.

#[local] Abbreviation Inv := (scan_inv F msOutliers0 fsOutliers0).

(** A protected term is skipped with a warning. *)
Lemma examine_protected c s : protected F c = true ->
  examine F c s =
  mkOutlierScan (affectedParams s) (nOutliers s) (msOutliers s) (fsOutliers s)
                (warnings s ++ [warning_of F c]).
Proof.
  unfold protected, examine, warning_of. destruct (star c) as [m|f]; intros ->; done.
Qed.

(** A term that shares a parameter with a recorded one is kept. *)
Lemma examine_kept c s : protected F c = false ->
  drop_it (affectedParams s) (indices_of F c) = false -> examine F c s = s.
Proof.
  unfold protected, examine, indices_of. destruct (star c) as [m|f]; intros -> ->; done.
Qed.

(** Any other term is recorded and its parameters are marked. *)
Lemma examine_recorded c s : protected F c = false ->
  drop_it (affectedParams s) (indices_of F c) = true ->
  examine F c s =
  mkOutlierScan (mark (affectedParams s) (indices_of F c)) (wrap32 (nOutliers s + 1))
    (msOutliers s ++ from_option (fun m => [m]) [] (measured_of c))
    (fsOutliers s ++ from_option (fun f => [f]) [] (fitted_of c))
    (warnings s).
Proof.
  unfold protected, examine, indices_of, measured_of, fitted_of.
  destruct (star c) as [m|f]; intros -> ->; simpl; by rewrite app_nil_r.
Qed.

Lemma omap_snoc {A B} (f : A -> option B) (l : list A) (a : A) :
  omap f (l ++ [a]) = omap f l ++ from_option (fun b => [b]) [] (f a).
Proof. rewrite omap_app. simpl. by destruct (f a). Qed.

Lemma examine_inv c s rec : Inv s rec ->
  Inv (examine F c s) rec \/ (Inv (examine F c s) (rec ++ [c]) /\ protected F c = false).
Proof.
  intros HI. destruct (protected F c) eqn:Ep.
  { left. rewrite examine_protected by done. destruct HI. by split. }
  destruct (drop_it (affectedParams s) (indices_of F c)) eqn:Ed.
  - right. split; [|done]. rewrite examine_recorded by done.
    pose proof (proj1 (drop_it_true _ _) Ed) as Ed'.
    destruct (mark_spec (indices_of F c) (affectedParams s)) as (H1 & H2 & H3 & H4).
    destruct HI as [Hms Hfs Hn Hlen Hnn Hmk Hdj].
    split; simpl.
    + by rewrite Hms, omap_snoc, app_assoc.
    + by rewrite Hfs, omap_snoc, app_assoc.
    + rewrite Hn, length_app. simpl. rewrite wrap32_succ. f_equal. lia.
    + by rewrite H1.
    + by apply H2.
    + intros r i Hr Hi Hlt. apply elem_of_app in Hr as [Hr|Hr].
      * specialize (Hmk r i Hr Hi Hlt). specialize (H3 i). lia.
      * apply list_elem_of_singleton in Hr as ->.
        specialize (H4 i Hi ltac:(lia)). rewrite (Ed' i Hi) in H4. lia.
    + apply ForallOrdPairs_snoc; [done|].
      intros r Hr i Hlt Hir Hic. specialize (Hmk r i Hr Hir Hlt).
      rewrite (Ed' i Hic) in Hmk. lia.
  - left. by rewrite examine_kept.
Qed.

(** A term that shares a parameter with a term recorded before it is kept:
    the state of the scan is left as it is. *)
Lemma examine_shared c s rec r i : Inv s rec ->
  r ∈ rec -> (i < nParTot F)%nat -> i ∈ indices_of F r -> i ∈ indices_of F c ->
  protected F c = false -> examine F c s = s.
Proof.
  intros HI Hr Hlt Hir Hic Hp. apply examine_kept; [done|].
  apply drop_it_false. exists i. split; [done|].
  pose proof (inv_marked F _ _ s rec HI r i Hr Hir Hlt). lia.
Qed.

(** The loop records a subsequence of the terms it examines; each recorded
    term is at or above the cut and is not protected. *)
Lemma outlier_loop_inv cut l : forall s rec, Inv s rec ->
  exists rec', rec' `sublist_of` examined cut l /\
    Forall (fun c => (cut <= chi2 c)%Q /\ protected F c = false) rec' /\
    Inv (outlier_loop F cut l s) (rec ++ rec').
Proof.
  induction l as [|c l IH]; intros s rec HI; simpl.
  - exists []. rewrite app_nil_r. split; [constructor|]. split; [constructor|done].
  - destruct (Qlt_bool (chi2 c) cut) eqn:Ec.
    { exists []. rewrite app_nil_r. split; [apply sublist_nil_l|]. split; [constructor|done]. }
    apply Qlt_bool_false in Ec.
    destruct (examine_inv c s rec HI) as [HI'|[HI' Hp]].
    + destruct (IH _ _ HI') as (rec' & Hsub & Hall & HI'').
      exists rec'. split; [by apply sublist_cons|]. by split.
    + destruct (IH _ _ HI') as (rec' & Hsub & Hall & HI'').
      exists (c :: rec'). split; [by apply sublist_skip|]. split.
      * by constructor.
      * by rewrite <- app_assoc in HI''.
Qed.

Lemma examined_sublist cut l : examined cut l `sublist_of` l.
Proof.
  induction l as [|c l IH]; simpl; [done|].
  destruct (Qlt_bool _ _); [apply sublist_nil_l|by apply sublist_skip].
Qed.

Lemma scan_inv_init : Inv (mkOutlierScan (replicate (nParTot F) 0) 0 msOutliers0 fsOutliers0 []) [].
Proof.
  split; simpl.
  - by rewrite app_nil_r.
  - by rewrite app_nil_r.
  - done.
  - apply length_replicate.
  - apply Forall_replicate. lia.
  - by intros c i ?%elem_of_nil.
  - constructor.
Qed.

Lemma outlier_loop_examined cut l : forall s,
  outlier_loop F cut l s = foldl (fun s c => examine F c s) s (examined cut l).
Proof.
  induction l as [|c l IH]; intros s; simpl; [done|].
  destruct (Qlt_bool (chi2 c) cut); [done|]. simpl. apply IH.
Qed.

Lemma examine_warnings c s :
  warnings (examine F c s) =
  warnings s ++ (if protected F c then [warning_of F c] else []).
Proof.
  destruct (protected F c) eqn:Ep.
  - by rewrite examine_protected.
  - destruct (drop_it (affectedParams s) (indices_of F c)) eqn:Ed.
    + rewrite examine_recorded by done. simpl. by rewrite app_nil_r.
    + rewrite examine_kept by done. by rewrite app_nil_r.
Qed.

Lemma outlier_loop_warnings cut l : forall s,
  warnings (outlier_loop F cut l s) =
  warnings s ++ map (warning_of F) (filter (fun c => protected F c = true) (examined cut l)).
Proof.
  induction l as [|c l IH]; intros s; cbn [outlier_loop examined].
  - by rewrite app_nil_r.
  - destruct (Qlt_bool (chi2 c) cut); [by rewrite app_nil_r|].
    rewrite IH, examine_warnings.
    destruct (protected F c) eqn:Ep.
    + rewrite filter_cons_True by done. simpl. by rewrite <- app_assoc.
    + rewrite filter_cons_False by congruence. by rewrite app_nil_r.
Qed.

(** In a traversal by descending chi2 the terms examined are the terms at
    or above the cut. *)
Lemma examined_split cut l : StronglySorted (flip le_chi2) l ->
  exists rest, l = examined cut l ++ rest /\
    Forall (fun c => (cut <= chi2 c)%Q) (examined cut l) /\
    Forall (fun c => (chi2 c < cut)%Q) rest.
Proof.
  induction 1 as [|c l Hl IH Hc]; simpl.
  - exists []. by repeat constructor.
  - destruct (Qlt_bool (chi2 c) cut) eqn:Ec.
    + apply Qlt_bool_iff in Ec. exists (c :: l). split; [done|]. split; [constructor|].
      constructor; [done|]. eapply Forall_impl; [apply Hc|].
      intros c' Hc'. unfold flip, le_chi2 in Hc'. simpl in Hc'. lra.
    + apply Qlt_bool_false in Ec. destruct IH as (rest & Heq & H1 & H2).
      exists rest. split; [simpl; f_equal; exact Heq|]. split; [by constructor|done].
Qed.

Lemma sorted_descending : StronglySorted (flip le_chi2) (reverse (sorted_chi2List F)).
Proof.
  apply Sorted_StronglySorted; [intros a b c Hab Hbc; unfold flip in *; by etransitivity|].
  apply Sorted_reverse. unfold sorted_chi2List. apply Sorted_merge_sort. apply _.
Qed.

Lemma sorted_perm : reverse (sorted_chi2List F) ≡ₚ terms F.
Proof. rewrite reverse_Permutation. apply merge_sort_Permutation. Qed.

(** What a call of [findOutliers] records, returns and logs. *)
Lemma findOutliers_spec nSigmaCut :
  exists rec,
    rec `sublist_of` examined (cut_of nSigmaCut (sorted_chi2List F))
                       (reverse (sorted_chi2List F)) /\
    Forall (fun c => (cut_of nSigmaCut (sorted_chi2List F) <= chi2 c)%Q /\
                     protected F c = false) rec /\
    ForallOrdPairs (disjoint_indices F) rec /\
    findOutliers F nSigmaCut msOutliers0 fsOutliers0 =
    (wrap32 (Z.of_nat (length rec)), msOutliers0 ++ omap measured_of rec,
     fsOutliers0 ++ omap fitted_of rec,
     map (warning_of F)
       (filter (fun c => protected F c = true)
          (examined (cut_of nSigmaCut (sorted_chi2List F)) (reverse (sorted_chi2List F))))).
Proof.
  unfold findOutliers.
  destruct (Nat.eqb_spec (length (accumulateStatImageList F ++ accumulateStatRefStars F)) 0)
    as [H0|H0].
  - exists []. split; [apply sublist_nil_l|]. split; [constructor|]. split; [constructor|].
    unfold sorted_chi2List. apply nil_length_inv in H0. rewrite H0. simpl.
    by rewrite !app_nil_r.
  - fold (sorted_chi2List F).
    destruct (outlier_loop_inv (cut_of nSigmaCut (sorted_chi2List F))
                (reverse (sorted_chi2List F)) _ [] scan_inv_init) as (rec & Hsub & Hall & HI).
    exists rec. split; [done|]. split; [done|].
    destruct HI as [Hms Hfs Hn _ _ _ Hdj]. split; [done|].
    rewrite outlier_loop_warnings. simpl in *. by rewrite Hms, Hfs, Hn.
Qed.

End FindOutliers.


(** ** The claims on [findOutliers] *)

Lemma ForallOrdPairs_lookup {A} (R : A -> A -> Prop) (l : list A) :
  ForallOrdPairs R l ->
  forall j1 j2 a b, (j1 < j2)%nat -> l !! j1 = Some a -> l !! j2 = Some b -> R a b.
Proof.
  induction 1 as [|c l Hc Hl IH]; intros j1 j2 a b Hlt H1 H2; [done|].
  destruct j2 as [|j2]; [lia|]. destruct j1 as [|j1]; simpl in *.
  - inversion H1; subst. rewrite List.Forall_forall in Hc. apply Hc.
    apply list_elem_of_In. by apply list_elem_of_lookup_2 with j2.
  - apply (IH j1 j2); [lia|done..].
Qed.

Section FindOutliersClaims.
Context {E : External} {M : Type} {V : Virtual M}.

(** C2: in one call of [findOutliers] the parameter-index sets of the terms
    recorded as outliers are pairwise disjoint: each index of
    [affectedParams] belongs to at most one recorded term, and a term that
    shares an index with a term recorded before it is kept, the lists, the
    count and [affectedParams] being left as they are. *)
Theorem findOutliers_disjoint (F : t M) (nSigmaCut : Q) (msOutliers0 fsOutliers0 : list nat) :
  (exists rec : list Chi2Star,
    rec `sublist_of` reverse (sorted_chi2List F) /\
    fst (findOutliers F nSigmaCut msOutliers0 fsOutliers0) =
    (wrap32 (Z.of_nat (length rec)), msOutliers0 ++ omap measured_of rec,
     fsOutliers0 ++ omap fitted_of rec) /\
    ForallOrdPairs (disjoint_indices F) rec /\
    (forall i j1 j2 c1 c2, (i < nParTot F)%nat ->
       rec !! j1 = Some c1 -> rec !! j2 = Some c2 ->
       i ∈ indices_of F c1 -> i ∈ indices_of F c2 -> j1 = j2)) /\
  (forall s rec r c i, scan_inv F msOutliers0 fsOutliers0 s rec ->
     r ∈ rec -> (i < nParTot F)%nat -> i ∈ indices_of F r -> i ∈ indices_of F c ->
     affectedParams (examine F c s) = affectedParams s /\
     nOutliers (examine F c s) = nOutliers s /\
     msOutliers (examine F c s) = msOutliers s /\
     fsOutliers (examine F c s) = fsOutliers s).
Proof.
  split.
  - destruct (findOutliers_spec F msOutliers0 fsOutliers0 nSigmaCut)
      as (rec & Hsub & Hall & Hdj & Heq).
    exists rec. split; [|split; [|split]].
    + etransitivity; [apply Hsub|apply examined_sublist].
    + by rewrite Heq.
    + done.
    + intros i j1 j2 c1 c2 Hi H1 H2 Hi1 Hi2.
      destruct (Nat.lt_trichotomy j1 j2) as [Hlt|[Heq'|Hgt]]; [exfalso|done|exfalso].
      * by apply (ForallOrdPairs_lookup _ _ Hdj j1 j2 c1 c2 Hlt H1 H2 i).
      * by apply (ForallOrdPairs_lookup _ _ Hdj j2 j1 c2 c1 Hgt H2 H1 i).
  - intros s rec r c i HI Hr Hi Hir Hic.
    destruct (protected F c) eqn:Ep.
    + by rewrite examine_protected.
    + by rewrite (examine_shared F msOutliers0 fsOutliers0 c s rec r i).
Qed.

(** C3: [findOutliers] never records a reference term whose FittedStar has
    no measurement, nor a measurement term whose FittedStar has exactly one
    measurement and no RefStar; each such term met above the cut is logged
    as a warning and left, and the loop goes on with the next term. *)
Theorem findOutliers_protected (F : t M) (nSigmaCut : Q) (msOutliers0 fsOutliers0 : list nat) :
  (exists rec : list Chi2Star,
    findOutliers F nSigmaCut msOutliers0 fsOutliers0 =
    (wrap32 (Z.of_nat (length rec)), msOutliers0 ++ omap measured_of rec,
     fsOutliers0 ++ omap fitted_of rec,
     map (warning_of F)
       (filter (fun c => protected F c = true)
          (examined (cut_of nSigmaCut (sorted_chi2List F)) (reverse (sorted_chi2List F))))) /\
    (forall f, f ∈ omap fitted_of rec ->
       measurementCount (getFittedStar (associations F) f) <> 0) /\
    (forall m, m ∈ omap measured_of rec ->
       let fs := getFittedStar (associations F)
                   (fittedStar (getMeasuredStar (associations F) m)) in
       ~ (measurementCount fs = 1 /\ refStar fs = None))) /\
  (forall c s, protected F c = true ->
     examine F c s =
     mkOutlierScan (affectedParams s) (nOutliers s) (msOutliers s) (fsOutliers s)
                   (warnings s ++ [warning_of F c])) /\
  (forall cut l s,
     outlier_loop F cut l s = foldl (fun s c => examine F c s) s (examined cut l)).
Proof.
  split; [|split].
  - destruct (findOutliers_spec F msOutliers0 fsOutliers0 nSigmaCut)
      as (rec & Hsub & Hall & Hdj & Heq).
    exists rec. split; [done|]. rewrite Forall_forall in Hall. split.
    + intros f Hf. apply list_elem_of_omap in Hf as (c & Hc & Hcf).
      destruct (Hall c Hc) as [_ Hp]. unfold fitted_of in Hcf. unfold protected in Hp.
      destruct (star c) as [m|f']; [done|]. inversion Hcf; subst. lia.
    + intros m Hm fs [H1 H2]. apply list_elem_of_omap in Hm as (c & Hc & Hcm).
      destruct (Hall c Hc) as [_ Hp]. unfold measured_of in Hcm. unfold protected in Hp.
      destruct (star c) as [m'|f]; [|done]. inversion Hcm; subst.
      fold fs in Hp. rewrite H1, H2 in Hp. by vm_compute in Hp.
  - intros c s. apply examine_protected.
  - intros cut l s. apply outlier_loop_examined.
Qed.

(** C6, as amended: the threshold of [findOutliers] is
    cut = mean + nSigmaCut · sigma of the chi2 terms, the terms are examined
    by descending chi2, the terms examined are those whose chi2 is at least
    the cut, and no term with a chi2 below the cut is recorded. *)
Theorem findOutliers_cut (F : t M) (nSigmaCut : Q) (msOutliers0 fsOutliers0 : list nat) :
  let chi2List := sorted_chi2List F in
  let averageAndSigma := computeAverageAndSigma chi2List in
  let cut := (fst averageAndSigma + nSigmaCut * snd averageAndSigma)%Q in
  let order := reverse chi2List in
  order ≡ₚ terms F /\
  StronglySorted (flip le_chi2) order /\
  (exists rest, order = examined cut order ++ rest /\
     Forall (fun c => (cut <= chi2 c)%Q) (examined cut order) /\
     Forall (fun c => (chi2 c < cut)%Q) rest) /\
  (exists rec, rec `sublist_of` examined cut order /\
     Forall (fun c => (cut <= chi2 c)%Q) rec /\
     fst (findOutliers F nSigmaCut msOutliers0 fsOutliers0) =
     (wrap32 (Z.of_nat (length rec)), msOutliers0 ++ omap measured_of rec,
      fsOutliers0 ++ omap fitted_of rec)).
Proof.
  intros chi2List averageAndSigma cut order.
  split; [apply sorted_perm|]. split; [apply sorted_descending|].
  split; [apply examined_split, sorted_descending|].
  destruct (findOutliers_spec F msOutliers0 fsOutliers0 nSigmaCut)
    as (rec & Hsub & Hall & Hdj & Heq).
  exists rec. split; [done|]. split.
  - eapply Forall_impl; [apply Hall|]. by intros c [? _].
  - by rewrite Heq.
Qed.

End FindOutliersClaims.

(** C6, as stated, fails: with two measurements of chi2 2 and 3 and a
    reference term of chi2 1, and [nSigmaCut = 1], the mean is 2, sigma is 1
    and the cut is 3; the measurement of chi2 3 is examined and recorded
    although its chi2 is not above the cut. *)
Lemma findOutliers_at_cut :
  findOutliers (V := graded_Virtual) toy_fit 1 [] [] = (1, [1%nat], [], []) /\
  terms (V := graded_Virtual) toy_fit =
    [mkChi2Star (MeasuredPtr 0) 2 1; mkChi2Star (MeasuredPtr 1) 3 1;
     mkChi2Star (FittedPtr 0) 1 1] /\
  (cut_of 1 (sorted_chi2List (V := graded_Virtual) toy_fit) == 3)%Q /\
  ~ (cut_of 1 (sorted_chi2List (V := graded_Virtual) toy_fit) < 3)%Q.
Proof.
  split; [by vm_compute|]. split; [by vm_compute|]. split; [by vm_compute|].
  by vm_compute.
Qed.


(** ** The loop of [minimize] *)

Section Minimize.
Context {E : External} {M : Type} {V : Virtual M}.
Variable nSigmaCut : Q.

(** The outcome of a turn, case by case. *)
Lemma iteration_unfold doRankUpdate (l : Loop) :
  iteration nSigmaCut doRankUpdate l =
  if chi2_went_up l then Return Chi2Increased (solved l) (log l ++ [Warn_Chi2WentUp])
  else if Qeq_bool nSigmaCut 0 then Return Converged (solved l) (log l)
  else
    let r := findOutliers (solved l) nSigmaCut [] [] in
    let msOutliers := snd (fst (fst r)) in
    let fsOutliers := snd (fst r) in
    let lg := log l ++ snd r in
    if fst (found nSigmaCut l) =? 0 then Return Converged (solved l) lg
    else
      let F := pruned nSigmaCut l in
      let oc := outliersContributions (solved l) msOutliers fsOutliers
                  (TripletList_new (fst (fst (fst r)))) (Vector_zero (nParTot (solved l))) in
      let oldChi2' := stat_chi2 (computeChi2 (solved l)) in
      let totalMeas := wrap32 (totalMeasOutliers l + Z.of_nat (length msOutliers)) in
      let totalRef := wrap32 (totalRefOutliers l + Z.of_nat (length fsOutliers)) in
      if doRankUpdate then
        Again (mkLoop F
                 (fst (Chol_update (chol l)
                         (setFromTriplets (nParTot F) (nextFreeIndex (fst oc)) (triplets (fst oc)))
                         false))
                 (Vector_neg (snd oc)) oldChi2' totalMeas totalRef lg)
      else
        let ld := leastSquareDerivatives F (TripletList_new (lastNTrip F))
                    (Vector_zero (nParTot F)) in
        let F' := with_lastNTrip F (Z.of_nat (length (triplets (fst ld)))) in
        if negb (Chol_success (refactored F))
        then Return Failed F' (lg ++ [Error_FactorizationFailed])
        else Again (mkLoop F' (refactored F) (snd ld) oldChi2' totalMeas totalRef lg).
Proof.
  unfold iteration, found, pruned, refactored. fold (solved l). fold (chi2_went_up l).
  destruct (chi2_went_up l); [done|].
  destruct (Qeq_bool nSigmaCut 0); [done|].
  destruct (findOutliers (solved l) nSigmaCut [] []) as [[[n ms] fs] w]. cbn [fst snd].
  destruct (n =? 0); [done|].
  destruct (outliersContributions (solved l) ms fs (TripletList_new n)
              (Vector_zero (nParTot (solved l)))) as [ot og]. cbn [fst snd].
  destruct doRankUpdate.
  - by destruct (Chol_update _ _ _).
  - by destruct (leastSquareDerivatives _ _ _).
Qed.

Lemma minimize_loop_reaches doRankUpdate (l0 l : Loop) k removed :
  reaches nSigmaCut doRankUpdate l0 k removed l ->
  forall fuel, minimize_loop (k + fuel) nSigmaCut doRankUpdate l0 =
               minimize_loop fuel nSigmaCut doRankUpdate l.
Proof.
  induction 1 as [|k removed l l' Hr IH Hit]; intros fuel; [done|].
  replace (S k + fuel)%nat with (k + S fuel)%nat by lia.
  rewrite IH. simpl. by rewrite Hit.
Qed.

Lemma minimize_init_cases whatToFit (F : t M) :
  let F1 := assignIndices whatToFit F in
  let ld := leastSquareDerivatives F1 (TripletList_new (lastNTrip F1))
              (Vector_zero (nParTot F1)) in
  let F2 := with_lastNTrip F1 (Z.of_nat (length (triplets (fst ld)))) in
  minimize_init whatToFit F =
  if negb (Chol_success (refactored F1)) then Return Failed F2 [Error_FactorizationFailed]
  else Again (mkLoop F2 (refactored F1) (snd ld) (stat_chi2 (computeChi2 F2)) 0 0 []).
Proof.
  intros F1 ld F2. unfold minimize_init, refactored. fold F1.
  unfold TripletList_new in *. fold ld.
  destruct ld as [tl g] eqn:Eld. subst F2. cbn [fst snd]. done.
Qed.

(** C8: when the factorization of the Hessian fails, be it the first one
    or the one that follows the removal of outliers without rank update,
    [minimize] returns [Failed] at once: the fitter is left as it is at that
    point, and no parameter is offset any more. *)
Theorem minimize_factorization_failed (whatToFit : string) (F : t M) :
  (forall fuel doRankUpdate,
     Chol_success (refactored (assignIndices whatToFit F)) = false ->
     exists n,
       minimize fuel whatToFit nSigmaCut doRankUpdate F =
       Some (Failed, with_lastNTrip (assignIndices whatToFit F) n, [Error_FactorizationFailed])) /\
  (forall l : Loop,
     chi2_went_up l = false -> Qeq_bool nSigmaCut 0 = false ->
     fst (found nSigmaCut l) <> 0 ->
     Chol_success (refactored (pruned nSigmaCut l)) = false ->
     exists n lg,
       iteration nSigmaCut false l = Return Failed (with_lastNTrip (pruned nSigmaCut l) n) lg /\
       (forall l0 k removed fuel,
          minimize_init whatToFit F = Again l0 ->
          reaches nSigmaCut false l0 k removed l -> (k < fuel)%nat ->
          minimize fuel whatToFit nSigmaCut false F =
          Some (Failed, with_lastNTrip (pruned nSigmaCut l) n, lg))).
Proof.
  split.
  - intros fuel doRankUpdate Hfail. unfold minimize.
    rewrite minimize_init_cases. rewrite Hfail. cbn [negb]. by eexists.
  - intros l Hup Hcut Hn Hfail.
    pose proof (iteration_unfold false l) as Hit.
    rewrite Hup, Hcut in Hit. cbv zeta in Hit.
    rewrite (proj2 (Z.eqb_neq _ _) Hn), Hfail in Hit. cbn [negb] in Hit.
    eexists _, _. split; [exact Hit|].
    intros l0 k removed fuel Hinit Hreach Hfuel. unfold minimize. rewrite Hinit.
    replace fuel with (k + S (fuel - k - 1))%nat by lia.
    rewrite (minimize_loop_reaches false l0 l k removed Hreach). simpl. by rewrite Hit.
Qed.

End Minimize.

Lemma minimize_factorization_failed_witness :
  @chi2_went_up frail_External unit frail_Virtual toy_loop = false /\ Qeq_bool 1 0 = false /\
  fst (@found frail_External unit frail_Virtual 1 toy_loop) <> 0 /\
  Chol_success (@refactored frail_External unit frail_Virtual
                  (@pruned frail_External unit frail_Virtual 1 toy_loop)) = false /\
  @minimize_init frail_External unit frail_Virtual "Model" toy_fit = Again toy_loop /\
  exists n lg,
    @iteration frail_External unit frail_Virtual 1 false toy_loop =
    Return Failed (with_lastNTrip (@pruned frail_External unit frail_Virtual 1 toy_loop) n) lg /\
    @minimize frail_External unit frail_Virtual 1 "Model" 1 false toy_fit =
    Some (Failed, with_lastNTrip (@pruned frail_External unit frail_Virtual 1 toy_loop) n, lg).
Proof.
  split; [by vm_compute|]. split; [by vm_compute|]. split; [by vm_compute|].
  split; [by vm_compute|]. split; [by vm_compute|].
  destruct (proj2 (@minimize_factorization_failed frail_External unit frail_Virtual 1
                     "Model" toy_fit) toy_loop)
    as (n & lg & Hit & Hrun); [by vm_compute..|].
  exists n, lg. split; [exact Hit|].
  apply (Hrun toy_loop 0%nat 0%nat 1%nat); [by vm_compute|apply reaches_start|lia].
Defined.


(** ** The stars that a turn removes *)

Lemma filter_alter_drop {A} (P : A -> Prop) `{!forall x, Decision (P x)} (f : A -> A)
    (l : list A) (m : nat) (x : A) :
  l !! m = Some x -> P x -> ~ P (f x) ->
  length (filter P l) = S (length (filter P (alter f m l))).
Proof.
  revert m. induction l as [|a l IH]; intros m Hm HP HnP; [done|].
  destruct m as [|m]; simpl in *.
  - inversion Hm; subst. rewrite filter_cons_True by done.
    rewrite filter_cons_False by done. done.
  - destruct (decide (P a)).
    + rewrite !filter_cons_True by done. simpl. f_equal. by apply IH.
    + rewrite !filter_cons_False by done. by apply IH.
Qed.

Lemma filter_alter_same {A} (P : A -> Prop) `{!forall x, Decision (P x)} (f : A -> A)
    (l : list A) (m : nat) :
  (forall x, l !! m = Some x -> (P (f x) <-> P x)) ->
  length (filter P (alter f m l)) = length (filter P l).
Proof.
  revert m. induction l as [|a l IH]; intros m Hm; [done|].
  destruct m as [|m]; simpl in *.
  - specialize (Hm a eq_refl). destruct (decide (P a)).
    + rewrite !filter_cons_True by tauto. done.
    + rewrite !filter_cons_False by tauto. done.
  - destruct (decide (P a)).
    + rewrite !filter_cons_True by done. simpl. f_equal. by apply IH.
    + rewrite !filter_cons_False by done. by apply IH.
Qed.

Lemma filter_fmap_length {A B} (g : A -> B) (P : B -> Prop) `{!forall y, Decision (P y)}
    (l : list A) :
  length (filter (fun x => P (g x)) l) = length (filter P (g <$> l)).
Proof.
  induction l as [|a l IH]; simpl; [done|].
  destruct (decide (P (g a))).
  - rewrite !filter_cons_True by done. simpl. by rewrite IH.
  - rewrite !filter_cons_False by done. done.
Qed.

Lemma omap_sub {A B} (g : A -> option B) (rec l : list A) :
  rec ⊆+ l -> NoDup (omap g l) ->
  NoDup (omap g rec) /\ (forall y, y ∈ omap g rec -> y ∈ omap g l).
Proof.
  intros Hsub Hnd. apply submseteq_Permutation in Hsub as [k Hk].
  rewrite Hk, omap_app in Hnd. apply NoDup_app in Hnd as (H1 & _ & _).
  split; [done|]. intros y Hy. rewrite Hk, omap_app. apply elem_of_app. by left.
Qed.

Lemma omap_cons {A B} (g : A -> option B) (a : A) (l : list A) :
  omap g (a :: l) = match g a with Some y => y :: omap g l | None => omap g l end.
Proof. done. Qed.

Lemma length_omap_split (rec : list Chi2Star) :
  length rec = (length (omap measured_of rec) + length (omap fitted_of rec))%nat.
Proof.
  induction rec as [|c rec IH]; [done|]. rewrite !omap_cons.
  unfold measured_of at 1, fitted_of at 1. destruct (star c); simpl; lia.
Qed.

Section Removal.
Context {E : External} {M : Type} {V : Virtual M}.

Lemma omap_measured_terms (F : t M) :
  omap measured_of (terms F) =
  filter (fun m => valid (getMeasuredStar (associations F) m) = true)
         (seq 0 (length (measuredStars (associations F)))).
Proof.
  unfold terms, accumulateStatImageList, accumulateStatRefStars. rewrite omap_app.
  set (l1 := seq 0 (length (measuredStars (associations F)))).
  set (l2 := seq 0 (length (fittedStarList (associations F)))).
  assert (omap measured_of
            (omap (fun f => match refStar (getFittedStar (associations F) f) with
                            | Some _ => Some (mkChi2Star (FittedPtr f) (fst (refChi2 F f))
                                                (snd (refChi2 F f)))
                            | None => None
                            end) l2) = []) as ->.
  { induction l2 as [|f l2 IH]; simpl; [done|].
    destruct (refStar (getFittedStar (associations F) f)); simpl; done. }
  rewrite app_nil_r.
  induction l1 as [|m l1 IH]; simpl; [done|].
  destruct (valid (getMeasuredStar (associations F) m)) eqn:Ev; simpl.
  - rewrite filter_cons_True by done. f_equal. exact IH.
  - rewrite filter_cons_False by congruence. exact IH.
Qed.

Lemma omap_fitted_terms (F : t M) :
  omap fitted_of (terms F) =
  filter (fun f => is_Some (refStar (getFittedStar (associations F) f)))
         (seq 0 (length (fittedStarList (associations F)))).
Proof.
  unfold terms, accumulateStatImageList, accumulateStatRefStars. rewrite omap_app.
  set (l1 := seq 0 (length (measuredStars (associations F)))).
  set (l2 := seq 0 (length (fittedStarList (associations F)))).
  assert (omap fitted_of
            (omap (fun m => if valid (getMeasuredStar (associations F) m)
                            then Some (mkChi2Star (MeasuredPtr m) (fst (measChi2 F m))
                                         (snd (measChi2 F m)))
                            else None) l1) = []) as ->.
  { induction l1 as [|m l1 IH]; simpl; [done|].
    destruct (valid (getMeasuredStar (associations F) m)); simpl; done. }
  rewrite app_nil_l.
  induction l2 as [|f l2 IH]; simpl; [done|].
  destruct (refStar (getFittedStar (associations F) f)) eqn:Er; simpl.
  - rewrite filter_cons_True by (rewrite Er; eauto). f_equal. exact IH.
  - rewrite filter_cons_False by (rewrite Er; by intros [? ?]). exact IH.
Qed.

(** The outliers that [findOutliers] hands back are distinct; the measured
    ones are valid and the fitted ones are linked to a RefStar. *)
Lemma findOutliers_outliers (F : t M) nSigmaCut :
  exists ms fs w,
    findOutliers F nSigmaCut [] [] = (wrap32 (Z.of_nat (length ms + length fs)), ms, fs, w) /\
    NoDup ms /\ (forall m, m ∈ ms -> valid (getMeasuredStar (associations F) m) = true) /\
    NoDup fs /\ (forall f, f ∈ fs -> is_Some (refStar (getFittedStar (associations F) f))).
Proof.
  destruct (findOutliers_spec F [] [] nSigmaCut) as (rec & Hsub & Hall & Hdj & Heq).
  assert (rec ⊆+ terms F) as Hsubm.
  { rewrite <- (sorted_perm F). apply sublist_submseteq.
    etransitivity; [apply Hsub|apply examined_sublist]. }
  destruct (omap_sub measured_of rec (terms F) Hsubm) as [Hnd1 Hin1].
  { rewrite omap_measured_terms. apply NoDup_filter, NoDup_seq. }
  destruct (omap_sub fitted_of rec (terms F) Hsubm) as [Hnd2 Hin2].
  { rewrite omap_fitted_terms. apply NoDup_filter, NoDup_seq. }
  exists (omap measured_of rec), (omap fitted_of rec). eexists.
  split; [|split; [done|split; [|split; [done|]]]].
  - rewrite Heq. simpl. by rewrite <- length_omap_split.
  - intros m Hm. apply Hin1 in Hm. rewrite omap_measured_terms in Hm.
    by apply list_elem_of_filter in Hm as [? _].
  - intros f Hf. apply Hin2 in Hf. rewrite omap_fitted_terms in Hf.
    by apply list_elem_of_filter in Hf as [? _].
Qed.

End Removal.


(** ** Removing outliers *)

Lemma getMeasuredStar_valid a m :
  valid (getMeasuredStar a m) = true ->
  measuredStars a !! m = Some (getMeasuredStar a m).
Proof.
  unfold getMeasuredStar. rewrite list_lookup_total_alt.
  destruct (measuredStars a !! m); [done|]. simpl. done.
Qed.

Lemma getFittedStar_ref a f :
  is_Some (refStar (getFittedStar a f)) ->
  fittedStarList a !! f = Some (getFittedStar a f).
Proof.
  unfold getFittedStar. rewrite list_lookup_total_alt.
  destruct (fittedStarList a !! f); [done|]. simpl. by intros [? ?].
Qed.

Lemma getMeasuredStar_removeMeasOutlier a m m' :
  getMeasuredStar (removeMeasOutlier a m) m' =
  if decide (m = m') then setValid false (getMeasuredStar a m') else getMeasuredStar a m'.
Proof.
  unfold getMeasuredStar, removeMeasOutlier. simpl.
  rewrite !list_lookup_total_alt. destruct (decide (m = m')) as [->|Hne].
  - rewrite list_lookup_alter_eq. by destruct (measuredStars a !! m').
  - by rewrite list_lookup_alter_ne.
Qed.

Lemma getFittedStar_removeMeasOutlier a m f :
  getFittedStar (removeMeasOutlier a m) f =
  if decide (fittedStar (getMeasuredStar a m) = f /\ (f < length (fittedStarList a))%nat)
  then decrMeasurementCount (getFittedStar a f) else getFittedStar a f.
Proof.
  unfold removeMeasOutlier, getFittedStar, getMeasuredStar. simpl.
  rewrite !list_lookup_total_alt.
  set (fm := fittedStar (default inhabitant (measuredStars a !! m))).
  destruct (decide (fm = f /\ (f < length (fittedStarList a))%nat)) as [[<- Hlt]|Hn].
  - rewrite list_lookup_alter_eq.
    destruct (lookup_lt_is_Some_2 _ _ Hlt) as [x Hx]. rewrite Hx. reflexivity.
  - destruct (decide (fm = f)) as [<-|Hne].
    + rewrite list_lookup_alter_eq. rewrite lookup_ge_None_2; [done|].
      apply Nat.nlt_ge. intros Hlt. apply Hn. done.
    + by rewrite list_lookup_alter_ne.
Qed.

Lemma children_removeMeasOutlier a m f :
  valid (getMeasuredStar a m) = true ->
  length (children a f) =
  ((if decide (fittedStar (getMeasuredStar a m) = f) then 1 else 0) +
   length (children (removeMeasOutlier a m) f))%nat.
Proof.
  intros Hv. pose proof (getMeasuredStar_valid a m Hv) as Hm.
  unfold children, removeMeasOutlier. simpl.
  destruct (decide (fittedStar (getMeasuredStar a m) = f)) as [He|Hne].
  - rewrite (filter_alter_drop _ (setValid false) _ m _ Hm); [done|done|].
    simpl. by intros [? _].
  - simpl. symmetry. apply filter_alter_same. intros x Hx.
    rewrite Hm in Hx. inversion Hx; subst. simpl. split; intros [? ?]; done.
Qed.

(** Removing a valid measurement keeps the count of every FittedStar right. *)
Lemma count_ok_removeMeasOutlier a m f :
  valid (getMeasuredStar a m) = true ->
  count_ok a f -> count_ok (removeMeasOutlier a m) f.
Proof.
  intros Hv. unfold count_ok.
  rewrite (children_removeMeasOutlier a m f Hv).
  rewrite (getFittedStar_removeMeasOutlier a m f).
  destruct (decide (fittedStar (getMeasuredStar a m) = f)) as [He|Hne].
  - destruct (decide (_ /\ _)) as [_|Hn].
    + simpl. lia.
    + intros Hc. exfalso. apply Hn. split; [done|].
      apply Nat.nle_gt. intros Hge.
      unfold getFittedStar in Hc. rewrite list_lookup_total_alt in Hc.
      rewrite lookup_ge_None_2 in Hc by done. simpl in Hc. lia.
  - destruct (decide (_ /\ _)) as [[? _]|_]; [done|]. simpl. done.
Qed.

Lemma validCount_removeMeasOutlier a m :
  valid (getMeasuredStar a m) = true ->
  validCount a = S (validCount (removeMeasOutlier a m)) /\
  refCount (removeMeasOutlier a m) = refCount a.
Proof.
  intros Hv. pose proof (getMeasuredStar_valid a m Hv) as Hm.
  unfold validCount, refCount, removeMeasOutlier. simpl. split.
  - by apply (filter_alter_drop _ (setValid false) _ m _ Hm).
  - apply filter_alter_same. intros x _. done.
Qed.

Lemma removeMeasOutliers_assoc_spec (outliers : list nat) : forall a,
  NoDup outliers ->
  (forall m, m ∈ outliers -> valid (getMeasuredStar a m) = true) ->
  let a' := removeMeasOutliers_assoc a outliers in
  validCount a = (length outliers + validCount a')%nat /\
  refCount a' = refCount a /\
  (forall f, count_ok a f -> count_ok a' f) /\
  (forall f, refStar (getFittedStar a' f) = refStar (getFittedStar a f)).
Proof.
  unfold removeMeasOutliers_assoc.
  induction outliers as [|m l IH]; intros a Hnd Hv; simpl.
  - done.
  - apply NoDup_cons in Hnd as [Hm Hnd].
    assert (valid (getMeasuredStar a m) = true) as Hvm by (apply Hv; by apply elem_of_cons; left).
    destruct (IH (removeMeasOutlier a m) Hnd) as (H1 & H2 & H3 & H4).
    { intros m' Hm'. rewrite getMeasuredStar_removeMeasOutlier.
      destruct (decide (m = m')) as [->|_]; [done|].
      apply Hv. by apply elem_of_cons; right. }
    destruct (validCount_removeMeasOutlier a m Hvm) as [H5 H6].
    split; [lia|]. split; [lia|]. split.
    + intros f Hf. apply H3. by apply count_ok_removeMeasOutlier.
    + intros f. rewrite H4, (getFittedStar_removeMeasOutlier a m f).
      by destruct (decide _).
Qed.

Lemma getFittedStar_removeRefOutlier a f f' :
  getFittedStar (removeRefOutlier a f) f' =
  if decide (f = f') then setRefStar None (getFittedStar a f') else getFittedStar a f'.
Proof.
  unfold getFittedStar, removeRefOutlier. simpl.
  rewrite !list_lookup_total_alt. destruct (decide (f = f')) as [->|Hne].
  - rewrite list_lookup_alter_eq. by destruct (fittedStarList a !! f').
  - by rewrite list_lookup_alter_ne.
Qed.

Lemma count_ok_removeRefOutlier a f f' : count_ok a f' -> count_ok (removeRefOutlier a f) f'.
Proof.
  unfold count_ok. rewrite getFittedStar_removeRefOutlier.
  by destruct (decide (f = f')).
Qed.

Lemma refCount_removeRefOutlier a f :
  is_Some (refStar (getFittedStar a f)) ->
  refCount a = S (refCount (removeRefOutlier a f)) /\
  validCount (removeRefOutlier a f) = validCount a.
Proof.
  intros Hr. pose proof (getFittedStar_ref a f Hr) as Hf.
  unfold validCount, refCount, removeRefOutlier. simpl. split; [|done].
  apply (filter_alter_drop _ (setRefStar None) _ f _ Hf); [done|].
  simpl. by intros [? ?].
Qed.

Lemma removeRefOutliers_assoc_spec (outliers : list nat) : forall a,
  NoDup outliers ->
  (forall f, f ∈ outliers -> is_Some (refStar (getFittedStar a f))) ->
  let a' := removeRefOutliers_assoc a outliers in
  refCount a = (length outliers + refCount a')%nat /\
  validCount a' = validCount a /\
  (forall f, count_ok a f -> count_ok a' f).
Proof.
  unfold removeRefOutliers_assoc.
  induction outliers as [|f l IH]; intros a Hnd Hr; simpl.
  - done.
  - apply NoDup_cons in Hnd as [Hf Hnd].
    assert (is_Some (refStar (getFittedStar a f))) as Hrf by (apply Hr; by apply elem_of_cons; left).
    destruct (IH (removeRefOutlier a f) Hnd) as (H1 & H2 & H3).
    { intros f' Hf'. rewrite getFittedStar_removeRefOutlier.
      destruct (decide (f = f')) as [->|_]; [done|].
      apply Hr. by apply elem_of_cons; right. }
    destruct (refCount_removeRefOutlier a f Hrf) as [H5 H6].
    split; [lia|]. split; [lia|].
    intros f' Hf'. apply H3. by apply count_ok_removeRefOutlier.
Qed.

(** The stars after the two removals, one by one. *)
Lemma removeMeasOutliers_assoc_stars (outliers : list nat) : forall a,
  let a' := removeMeasOutliers_assoc a outliers in
  length (fittedStarList a') = length (fittedStarList a) /\
  (forall m, getMeasuredStar a' m =
     if decide (m ∈ outliers) then setValid false (getMeasuredStar a m)
     else getMeasuredStar a m) /\
  (forall f, (f < length (fittedStarList a))%nat ->
     measurementCount (getFittedStar a' f) =
     measurementCount (getFittedStar a f) - Z.of_nat (attached a outliers f)) /\
  (forall f, refStar (getFittedStar a' f) = refStar (getFittedStar a f) /\
             indexInMatrix (getFittedStar a' f) = indexInMatrix (getFittedStar a f)).
Proof.
  unfold removeMeasOutliers_assoc.
  induction outliers as [|m l IH]; intros a; cbn [foldl].
  - split; [done|]. split; [|split; [|done]].
    + intros m. rewrite decide_False; [done|]. apply not_elem_of_nil.
    + intros f Hf. unfold attached. simpl. lia.
  - destruct (IH (removeMeasOutlier a m)) as (H1 & H2 & H3 & H4).
    assert (length (fittedStarList (removeMeasOutlier a m)) = length (fittedStarList a)) as Hlen.
    { unfold removeMeasOutlier. simpl. apply length_alter. }
    assert (forall f, attached (removeMeasOutlier a m) l f = attached a l f) as Hatt.
    { intros f. unfold attached. f_equal. apply list_filter_iff. intros m'.
      rewrite getMeasuredStar_removeMeasOutlier. by destruct (decide (m = m')). }
    split; [lia|]. split; [|split].
    + intros m'. rewrite H2, getMeasuredStar_removeMeasOutlier.
      destruct (decide (m = m')) as [->|Hne].
      * rewrite (decide_True (P := m' ∈ m' :: l)) by (apply elem_of_cons; by left).
        by destruct (decide (m' ∈ l)).
      * destruct (decide (m' ∈ l)) as [Hin|Hnin].
        -- rewrite decide_True; [done|]. apply elem_of_cons. by right.
        -- rewrite decide_False; [done|]. intros [?|?]%elem_of_cons; [congruence|done].
    + intros f Hf. rewrite H3 by lia. rewrite Hatt, getFittedStar_removeMeasOutlier.
      unfold attached. rewrite filter_cons.
      destruct (decide (fittedStar (getMeasuredStar a m) = f)) as [He|Hne].
      * rewrite decide_True by done. simpl. lia.
      * rewrite decide_False by (by intros [? _]). lia.
    + intros f. destruct (H4 f) as [H5 H6]. rewrite H5, H6.
      rewrite getFittedStar_removeMeasOutlier. by destruct (decide _).
Qed.

Lemma removeRefOutliers_assoc_stars (outliers : list nat) : forall a,
  let a' := removeRefOutliers_assoc a outliers in
  measuredStars a' = measuredStars a /\
  (forall f, getFittedStar a' f =
     if decide (f ∈ outliers) then setRefStar None (getFittedStar a f)
     else getFittedStar a f).
Proof.
  unfold removeRefOutliers_assoc.
  induction outliers as [|f0 l IH]; intros a; cbn [foldl].
  - split; [done|]. intros f. rewrite decide_False; [done|]. apply not_elem_of_nil.
  - destruct (IH (removeRefOutlier a f0)) as (H1 & H2).
    split; [by rewrite H1|].
    intros f. rewrite H2, getFittedStar_removeRefOutlier.
    destruct (decide (f0 = f)) as [->|Hne].
    + rewrite (decide_True (P := f ∈ f :: l)) by (apply elem_of_cons; by left).
      by destruct (decide (f ∈ l)).
    + destruct (decide (f ∈ l)) as [Hin|Hnin].
      * rewrite decide_True; [done|]. apply elem_of_cons. by right.
      * rewrite decide_False; [done|]. intros [?|?]%elem_of_cons; [congruence|done].
Qed.

Lemma removed_from_removal (a : Associations) (ms fs : list nat) :
  removed_from a (removeRefOutliers_assoc (removeMeasOutliers_assoc a ms) fs) ms fs.
Proof.
  destruct (removeMeasOutliers_assoc_stars ms a) as (H1 & H2 & H3 & H4).
  destruct (removeRefOutliers_assoc_stars fs (removeMeasOutliers_assoc a ms)) as (H5 & H6).
  assert (forall m, getMeasuredStar (removeRefOutliers_assoc (removeMeasOutliers_assoc a ms) fs) m =
                    getMeasuredStar (removeMeasOutliers_assoc a ms) m) as H7.
  { intros m. unfold getMeasuredStar. by rewrite H5. }
  split; [|split; [|split; [|split; [|split]]]].
  - intros m Hm. rewrite H7, H2. by rewrite decide_True.
  - intros m Hm. rewrite H7, H2. by rewrite decide_False.
  - intros f Hf. rewrite H6, <- (H3 f Hf). by destruct (decide (f ∈ fs)).
  - intros f Hf. rewrite H6. by rewrite decide_True.
  - intros f Hf. rewrite H6. rewrite decide_False by done. apply H4.
  - intros f. rewrite H6. destruct (decide (f ∈ fs)); simpl; apply H4.
Qed.


(** ** What the derived fitter leaves alone *)

Lemma filter_fmap_length_iff {A B} (g : A -> B) (Q : A -> Prop) (P : B -> Prop)
    `{!forall x, Decision (Q x)} `{!forall y, Decision (P y)} (l : list A) :
  (forall x, Q x <-> P (g x)) ->
  length (filter Q l) = length (filter P (g <$> l)).
Proof.
  intros Hiff. induction l as [|a l IH]; simpl; [done|].
  destruct (decide (Q a)) as [Hq|Hq].
  - rewrite !filter_cons_True by (done || by apply Hiff). simpl. by rewrite IH.
  - rewrite !filter_cons_False by (done || by rewrite <- Hiff). done.
Qed.

Lemma links_validCount a a' : links a = links a' -> validCount a = validCount a'.
Proof.
  intros H. unfold validCount.
  rewrite !(filter_fmap_length_iff (fun ms => (fittedStar ms, valid ms)) _
              (fun p => snd p = true)) by done.
  unfold links in H. injection H as H1 H2. by rewrite ?H1, ?H2.
Qed.

Lemma links_refCount a a' : links a = links a' -> refCount a = refCount a'.
Proof.
  intros H. unfold refCount.
  rewrite !(filter_fmap_length_iff (fun fs => (measurementCount fs, refStar fs)) _
              (fun p => is_Some (snd p))) by done.
  unfold links in H. injection H as H1 H2. by rewrite ?H1, ?H2.
Qed.

Lemma links_children a a' f : links a = links a' -> length (children a f) = length (children a' f).
Proof.
  intros H. unfold children.
  rewrite !(filter_fmap_length_iff (fun ms => (fittedStar ms, valid ms)) _
              (fun p => snd p = true /\ fst p = f)) by done.
  unfold links in H. injection H as H1 H2. by rewrite ?H1, ?H2.
Qed.

Lemma links_measurementCount a a' f : links a = links a' ->
  measurementCount (getFittedStar a f) = measurementCount (getFittedStar a' f).
Proof.
  intros H. unfold links in H. injection H as _ Hf.
  apply (f_equal (fun l => l !! f)) in Hf. rewrite !list_lookup_fmap in Hf.
  unfold getFittedStar. rewrite !list_lookup_total_alt.
  destruct (fittedStarList a !! f), (fittedStarList a' !! f); simpl in *; try done.
  by inversion Hf.
Qed.

Lemma links_count_ok a a' f : links a = links a' -> count_ok a f -> count_ok a' f.
Proof.
  intros H. unfold count_ok.
  by rewrite (links_children a a' f H), (links_measurementCount a a' f H).
Qed.

Lemma links_removable a a' : links a = links a' -> removable a = removable a'.
Proof.
  intros H. unfold removable. by rewrite (links_validCount a a' H), (links_refCount a a' H).
Qed.

Lemma removable_le a :
  (removable a <= length (measuredStars a) + length (fittedStarList a))%nat.
Proof.
  unfold removable, validCount, refCount.
  pose proof (length_filter (fun ms => valid ms = true) (measuredStars a)).
  pose proof (length_filter (fun fs => is_Some (refStar fs)) (fittedStarList a)). lia.
Qed.

(** ** A turn of the loop *)

Section Turn.
Context {E : External} {M : Type} {V : Virtual M} {L : Lawful}.
Variable nSigmaCut : Q.

(** What a turn finds and removes. *)
Lemma pruned_spec (l : Loop) :
  fst (found nSigmaCut l) = wrap32 (Z.of_nat (snd (found nSigmaCut l))) /\
  removable (associations (fit l)) =
    (snd (found nSigmaCut l) + removable (associations (pruned nSigmaCut l)))%nat /\
  (forall f, count_ok (associations (fit l)) f ->
             count_ok (associations (solved l)) f /\
             count_ok (associations (pruned nSigmaCut l)) f).
Proof.
  pose proof (offsetParams_links (Chol_solve (chol l) (grad l)) (fit l)) as Hl.
  fold (solved l) in Hl.
  destruct (findOutliers_outliers (solved l) nSigmaCut) as (ms & fs & w & Heq & Hn1 & Hv & Hn2 & Hr).
  unfold found, pruned. rewrite Heq. cbn [fst snd].
  destruct (removeMeasOutliers_assoc_spec ms (associations (solved l)) Hn1 Hv)
    as (H1 & H2 & H3 & H4).
  destruct (removeRefOutliers_assoc_spec fs
              (removeMeasOutliers_assoc (associations (solved l)) ms) Hn2)
    as (H5 & H6 & H7).
  { intros f Hf. rewrite H4. by apply Hr. }
  split; [done|]. split.
  - rewrite <- (links_removable _ _ Hl). unfold removable in *.
    unfold removeRefOutliers, removeMeasOutliers. simpl. lia.
  - intros f Hf. apply (links_count_ok _ _ f (eq_sym Hl)) in Hf.
    split; [done|]. unfold removeRefOutliers, removeMeasOutliers. simpl.
    apply H7, H3, Hf.
Qed.

Lemma iteration_again doRankUpdate (l l' : Loop) :
  iteration nSigmaCut doRankUpdate l = Again l' ->
  chi2_went_up l = false /\ fst (found nSigmaCut l) <> 0 /\
  associations (fit l') = associations (pruned nSigmaCut l) /\
  oldChi2 l' = stat_chi2 (computeChi2 (solved l)) /\
  exists a b, (a + b = snd (found nSigmaCut l))%nat /\
    totalMeasOutliers l' = wrap32 (totalMeasOutliers l + Z.of_nat a) /\
    totalRefOutliers l' = wrap32 (totalRefOutliers l + Z.of_nat b).
Proof.
  rewrite iteration_unfold.
  destruct (chi2_went_up l); [done|].
  destruct (Qeq_bool nSigmaCut 0); [done|]. cbv zeta.
  destruct (Z.eqb_spec (fst (found nSigmaCut l)) 0) as [|Hn]; [done|].
  assert (exists a b, (a + b = snd (found nSigmaCut l))%nat /\
            a = length (snd (fst (fst (findOutliers (solved l) nSigmaCut [] [])))) /\
            b = length (snd (fst (findOutliers (solved l) nSigmaCut [] [])))) as (a & b & Hab & Ha & Hb).
  { unfold found. destruct (findOutliers (solved l) nSigmaCut [] []) as [[[n ms] fs] w].
    simpl. by eexists _, _. }
  destruct doRankUpdate.
  - intros [= <-]. simpl. split; [done|]. split; [done|]. split; [done|]. split; [done|].
    exists a, b. subst a b. split; [done|]. split; done.
  - destruct (negb _); [done|]. intros [= <-]. simpl.
    split; [done|]. split; [done|]. split; [done|]. split; [done|].
    exists a, b. subst a b. split; [done|]. split; done.
Qed.

(** A turn that finds outliers goes on, or fails, with the outliers
    removed. *)
Lemma iteration_prunes doRankUpdate (l : Loop) :
  chi2_went_up l = false -> Qeq_bool nSigmaCut 0 = false ->
  fst (found nSigmaCut l) <> 0 ->
  (exists l', iteration nSigmaCut doRankUpdate l = Again l' /\
              associations (fit l') = associations (pruned nSigmaCut l)) \/
  (exists F' lg, iteration nSigmaCut doRankUpdate l = Return Failed F' lg /\
                 associations F' = associations (pruned nSigmaCut l)).
Proof.
  intros Hup Hcut Hn. rewrite iteration_unfold, Hup, Hcut. cbv zeta.
  rewrite (proj2 (Z.eqb_neq _ _) Hn).
  destruct doRankUpdate.
  - left. eexists. split; [reflexivity|done].
  - destruct (negb _).
    + right. eexists _, _. split; [reflexivity|done].
    + left. eexists. split; [reflexivity|done].
Qed.

(** The outliers of a turn, and the stars once they are removed. *)
Lemma outliers_spec (l : Loop) :
  let ms := fst (outliers nSigmaCut l) in
  let fs := snd (outliers nSigmaCut l) in
  snd (found nSigmaCut l) = (length ms + length fs)%nat /\
  NoDup ms /\ NoDup fs /\
  (forall m, m ∈ ms -> valid (getMeasuredStar (associations (solved l)) m) = true) /\
  (forall f, f ∈ fs -> is_Some (refStar (getFittedStar (associations (solved l)) f))) /\
  removed_from (associations (solved l)) (associations (pruned nSigmaCut l)) ms fs.
Proof.
  destruct (findOutliers_outliers (solved l) nSigmaCut) as (ms & fs & w & Heq & Hn1 & Hv & Hn2 & Hr).
  unfold outliers, found, pruned. rewrite Heq. cbn [fst snd].
  split; [done|]. split; [done|]. split; [done|]. split; [done|]. split; [done|].
  apply removed_from_removal.
Qed.

Lemma iteration_return doRankUpdate (l : Loop) r F' lg :
  iteration nSigmaCut doRankUpdate l = Return r F' lg ->
  (r = Chi2Increased /\ chi2_went_up l = true /\ F' = solved l /\
   lg = log l ++ [Warn_Chi2WentUp]) \/
  (r <> Chi2Increased /\ chi2_went_up l = false /\
   (associations F' = associations (solved l) \/
    associations F' = associations (pruned nSigmaCut l))).
Proof.
  rewrite iteration_unfold.
  destruct (chi2_went_up l).
  { intros [= <- <- <-]. by left. }
  destruct (Qeq_bool nSigmaCut 0).
  { intros [= <- <- <-]. right. split; [done|]. split; [done|]. by left. }
  cbv zeta. destruct (_ =? _).
  { intros [= <- <- <-]. right. split; [done|]. split; [done|]. by left. }
  destruct doRankUpdate; [done|]. destruct (negb _); [|done].
  intros [= <- <- <-]. right. split; [done|]. split; [done|]. by right.
Qed.

(** The fitter that a turn returns is the one the offset left, or, when the
    factorization that follows a removal fails, the one the removal left. *)
Lemma iteration_return_state doRankUpdate (l : Loop) r F' lg :
  iteration nSigmaCut doRankUpdate l = Return r F' lg ->
  (F' = solved l /\ r <> Failed) \/
  (r = Failed /\ doRankUpdate = false /\ fst (found nSigmaCut l) <> 0 /\
   associations F' = associations (pruned nSigmaCut l)).
Proof.
  rewrite iteration_unfold.
  destruct (chi2_went_up l).
  { intros [= <- <- <-]. by left. }
  destruct (Qeq_bool nSigmaCut 0).
  { intros [= <- <- <-]. by left. }
  cbv zeta. destruct (Z.eqb_spec (fst (found nSigmaCut l)) 0) as [|Hn].
  { intros [= <- <- <-]. by left. }
  destruct doRankUpdate; [done|]. destruct (negb _); [|done].
  intros [= <- <- <-]. by right.
Qed.

End Turn.


(** ** A run of the loop *)

Section Run.
Context {E : External} {M : Type} {V : Virtual M} {L : Lawful}.
Variable nSigmaCut : Q.
Variable doRankUpdate : bool.

#[local] Abbreviation reach := (reaches nSigmaCut doRankUpdate).

(** Along a run the removed terms add up with those that can still be
    removed, and the measurement counts stay right. *)
Lemma reaches_removable (l0 l : Loop) k removed :
  reach l0 k removed l ->
  (removed + removable (associations (fit l)) = removable (associations (fit l0)))%nat /\
  ((0 < removed)%nat <-> (0 < k)%nat) /\
  (forall f, count_ok (associations (fit l0)) f -> count_ok (associations (fit l)) f).
Proof.
  induction 1 as [|k removed l l' Hr (IH1 & IH2 & IH3) Hit].
  - split; [lia|]. split; [lia|done].
  - destruct (iteration_again nSigmaCut _ l l' Hit) as (_ & Hn & Ha & _).
    destruct (pruned_spec nSigmaCut l) as (Hf & Hrem & Hc).
    rewrite Ha. split; [lia|]. split.
    + split; [lia|]. intros _.
      destruct (snd (found nSigmaCut l)) as [|n]; [|lia].
      rewrite Hf in Hn. by vm_compute in Hn.
    + intros f Hf0. by apply Hc, IH3.
Qed.

(** The two counters of [minimize] add up to the number of removed terms:
    with fewer than 2^32 stars they never wrap around. *)
Lemma reaches_totals (l0 l : Loop) k removed :
  reach l0 k removed l ->
  totalMeasOutliers l0 = 0 -> totalRefOutliers l0 = 0 ->
  Z.of_nat (removable (associations (fit l0))) < 2 ^ 32 ->
  0 <= totalMeasOutliers l /\ 0 <= totalRefOutliers l /\
  totalMeasOutliers l + totalRefOutliers l = Z.of_nat removed.
Proof.
  intros Hr Hm0 Hr0 Hbound. induction Hr as [|k removed l l' Hr IH Hit].
  - lia.
  - destruct IH as (IH1 & IH2 & IH3).
    destruct (iteration_again nSigmaCut _ l l' Hit) as (_ & _ & _ & _ & a & b & Hab & Hta & Htb).
    pose proof (reaches_removable l0 l' (S k) _ (reaches_turn _ _ _ _ _ _ _ Hr Hit)) as [Hsum _].
    unfold wrap32 in *.
    rewrite Z.mod_small in Hta by lia. rewrite Z.mod_small in Htb by lia. lia.
Qed.

Lemma chi2_went_up_reached (l0 l : Loop) k removed :
  reach l0 k removed l ->
  totalMeasOutliers l0 = 0 -> totalRefOutliers l0 = 0 ->
  Z.of_nat (removable (associations (fit l0))) < 2 ^ 32 ->
  chi2_went_up l = true <->
  (oldChi2 l < stat_chi2 (computeChi2 (solved l)))%Q /\ (0 < removed)%nat.
Proof.
  intros Hr Hm0 Hr0 Hbound.
  destruct (reaches_totals l0 l k removed Hr Hm0 Hr0 Hbound) as (H1 & H2 & H3).
  destruct (reaches_removable l0 l k removed Hr) as (Hsum & _).
  unfold chi2_went_up. rewrite andb_true_iff, Qlt_bool_iff, negb_true_iff, Z.eqb_neq.
  rewrite H3. unfold wrap32. rewrite Z.mod_small by lia.
  split; intros [H4 H5]; (split; [done|lia]).
Qed.

(** A run that returns does so in a turn that it reaches. *)
Lemma minimize_loop_run (l0 : Loop) r F' lg fuel : forall k removed l,
  reach l0 k removed l ->
  minimize_loop fuel nSigmaCut doRankUpdate l = Some (r, F', lg) ->
  exists k' removed' l', reach l0 k' removed' l' /\ (k' < k + fuel)%nat /\
    iteration nSigmaCut doRankUpdate l' = Return r F' lg.
Proof.
  induction fuel as [|fuel IH]; intros k removed l Hr Hrun; [done|].
  simpl in Hrun. destruct (iteration nSigmaCut doRankUpdate l) as [r' F'' lg'|l'] eqn:Hit.
  - inversion Hrun; subst. exists k, removed, l. split; [done|]. split; [lia|done].
  - destruct (IH (S k) _ l' (reaches_turn _ _ _ _ _ _ _ Hr Hit) Hrun) as (k' & removed' & l'' & H1 & H2 & H3).
    exists k', removed', l''. split; [done|]. split; [lia|done].
Qed.

(** The loop comes to an end: every full turn removes a term. *)
Lemma minimize_loop_terminates (n : nat) : forall l : Loop,
  (removable (associations (fit l)) <= n)%nat ->
  is_Some (minimize_loop (S n) nSigmaCut doRankUpdate l).
Proof.
  induction n as [|n IH]; intros l Hn; simpl.
  - destruct (iteration nSigmaCut doRankUpdate l) as [r F' lg|l'] eqn:Hit; [done|].
    destruct (iteration_again nSigmaCut _ l l' Hit) as (_ & Hne & _).
    destruct (pruned_spec nSigmaCut l) as (Hf & Hrem & _).
    assert (snd (found nSigmaCut l) = 0%nat) as H0 by lia.
    rewrite Hf, H0 in Hne. by vm_compute in Hne.
  - destruct (iteration nSigmaCut doRankUpdate l) as [r F' lg|l'] eqn:Hit; [done|].
    destruct (iteration_again nSigmaCut _ l l' Hit) as (_ & Hne & Ha & _).
    destruct (pruned_spec nSigmaCut l) as (Hf & Hrem & _).
    apply IH. rewrite Ha.
    destruct (snd (found nSigmaCut l)) as [|m] eqn:H0; [|lia].
    rewrite Hf in Hne. by vm_compute in Hne.
Qed.

Lemma minimize_init_again whatToFit (F : t M) (l0 : Loop) :
  minimize_init whatToFit F = Again l0 ->
  totalMeasOutliers l0 = 0 /\ totalRefOutliers l0 = 0 /\
  links (associations (fit l0)) = links (associations F) /\
  oldChi2 l0 = stat_chi2 (computeChi2 (fit l0)).
Proof.
  rewrite minimize_init_cases. cbv zeta. destruct (negb _); [done|].
  intros [= <-]. simpl. split; [done|]. split; [done|].
  split; [apply assignIndices_links|done].
Qed.

Lemma minimize_init_return whatToFit (F : t M) r F' lg :
  minimize_init whatToFit F = Return r F' lg ->
  r = Failed /\ links (associations F') = links (associations F).
Proof.
  rewrite minimize_init_cases. cbv zeta. destruct (negb _); [|done].
  intros [= <- <- <-]. simpl. split; [done|]. apply assignIndices_links.
Qed.

(** C4: [minimize] returns [Chi2Increased] exactly when, in some turn, the
    chi2 computed after the solve-and-offset step is greater than the chi2 of
    the turn before and at least one outlier was removed in the turns
    before; the loop stops there and the fitter is returned as the offset
    left it. *)
Theorem minimize_chi2_increased (whatToFit : string) (F : t M) :
  Z.of_nat (length (measuredStars (associations F)) +
            length (fittedStarList (associations F))) < 2 ^ 32 ->
  (forall fuel F' lg,
     minimize fuel whatToFit nSigmaCut doRankUpdate F = Some (Chi2Increased, F', lg) ->
     exists l0 k removed l,
       minimize_init whatToFit F = Again l0 /\ reach l0 k removed l /\ (k < fuel)%nat /\
       (oldChi2 l < stat_chi2 (computeChi2 (solved l)))%Q /\
       (0 < removed)%nat /\ (0 < k)%nat /\
       F' = solved l /\ lg = log l ++ [Warn_Chi2WentUp]) /\
  (forall l0 k removed l fuel,
     minimize_init whatToFit F = Again l0 -> reach l0 k removed l -> (k < fuel)%nat ->
     (oldChi2 l < stat_chi2 (computeChi2 (solved l)))%Q -> (0 < removed)%nat ->
     minimize fuel whatToFit nSigmaCut doRankUpdate F =
     Some (Chi2Increased, solved l, log l ++ [Warn_Chi2WentUp])) /\
  (forall l0 k removed l l',
     minimize_init whatToFit F = Again l0 -> reach l0 k removed l ->
     oldChi2 l0 = stat_chi2 (computeChi2 (fit l0)) /\
     (iteration nSigmaCut doRankUpdate l = Again l' ->
      oldChi2 l' = stat_chi2 (computeChi2 (solved l)))).
Proof.
  intros Hsize.
  assert (forall l0, minimize_init whatToFit F = Again l0 ->
            totalMeasOutliers l0 = 0 /\ totalRefOutliers l0 = 0 /\
            Z.of_nat (removable (associations (fit l0))) < 2 ^ 32) as Hinit.
  { intros l0 H0. destruct (minimize_init_again whatToFit F l0 H0) as (H1 & H2 & H3 & _).
    split; [done|]. split; [done|].
    rewrite (links_removable _ _ H3). pose proof (removable_le (associations F)). lia. }
  split; [|split].
  - intros fuel F' lg Hrun. unfold minimize in Hrun.
    destruct (minimize_init whatToFit F) as [r F'' lg'|l0] eqn:H0.
    { apply minimize_init_return in H0 as [-> _]. done. }
    destruct (Hinit l0 eq_refl) as (Hm0 & Hr0 & Hb).
    destruct (minimize_loop_run l0 _ _ _ fuel 0%nat 0%nat l0 (reaches_start _ _ _) Hrun)
      as (k & removed & l & Hr & Hk & Hit).
    apply iteration_return in Hit as [(_ & Hup & -> & ->)|(Hne & _)]; [|done].
    apply (chi2_went_up_reached l0 l k removed Hr Hm0 Hr0 Hb) in Hup as [Hlt Hrem].
    exists l0, k, removed, l. split; [done|]. split; [done|]. split; [lia|].
    split; [done|]. split; [done|]. split; [|done].
    by apply (reaches_removable l0 l k removed Hr).
  - intros l0 k removed l fuel H0 Hr Hk Hlt Hrem.
    destruct (Hinit l0 H0) as (Hm0 & Hr0 & Hb).
    assert (chi2_went_up l = true) as Hup
      by by apply (chi2_went_up_reached l0 l k removed Hr Hm0 Hr0 Hb).
    unfold minimize. rewrite H0.
    replace fuel with (k + S (fuel - k - 1))%nat by lia.
    rewrite (minimize_loop_reaches nSigmaCut doRankUpdate l0 l k removed Hr). simpl.
    by rewrite iteration_unfold, Hup.
  - intros l0 k removed l l' H0 Hr. split.
    + by destruct (minimize_init_again whatToFit F l0 H0) as (_ & _ & _ & ?).
    + intros Hit. by destruct (iteration_again nSigmaCut _ l l' Hit) as (_ & _ & _ & ? & _).
Qed.

(** C5: removing outliers keeps the measurement counts right: a FittedStar
    whose count is the number of its valid MeasuredStars when [minimize] is
    entered has it so when [minimize] returns, and [minimize] does return;
    a measured outlier is made invalid and the count of its FittedStar goes
    down by one, a reference outlier only loses its RefStar link.  So it is
    in the run: a turn of [minimize] in which the chi2 has not gone up and
    [findOutliers] reports outliers (distinct stars, the measured ones
    valid, the fitted ones linked to a RefStar) goes on to the next turn, or
    returns [Failed], with a fitter in which each measured outlier is
    invalid, each FittedStar has its count down by one for each of its
    measured outliers, each reference outlier has lost its RefStar link and
    every other star is as the offset left it; after any number of turns
    the terms removed and those that can still be removed add up to those
    that could be removed when [minimize] was entered; and what [minimize]
    returns is what the first turn that returns gives: the fitter as the
    offset of that turn left it or, with [Failed], as the removal of that
    turn left it. *)
Theorem minimize_measurement_count (whatToFit : string) (F : t M) :
  (forall fuel r F' lg,
     minimize fuel whatToFit nSigmaCut doRankUpdate F = Some (r, F', lg) ->
     forall f, count_ok (associations F) f -> count_ok (associations F') f) /\
  is_Some (minimize (S (removable (associations F))) whatToFit nSigmaCut doRankUpdate F) /\
  (forall a m,
     valid (getMeasuredStar a m) = true ->
     valid (getMeasuredStar (removeMeasOutlier a m) m) = false /\
     (forall m', m' <> m ->
        getMeasuredStar (removeMeasOutlier a m) m' = getMeasuredStar a m') /\
     (forall f, (f < length (fittedStarList a))%nat ->
        getFittedStar (removeMeasOutlier a m) f =
        if decide (fittedStar (getMeasuredStar a m) = f)
        then decrMeasurementCount (getFittedStar a f) else getFittedStar a f)) /\
  (forall a f,
     measuredStars (removeRefOutlier a f) = measuredStars a /\
     forall f', getFittedStar (removeRefOutlier a f) f' =
       if decide (f = f') then setRefStar None (getFittedStar a f') else getFittedStar a f') /\
  (forall l : Loop,
     chi2_went_up l = false -> Qeq_bool nSigmaCut 0 = false ->
     fst (found nSigmaCut l) <> 0 ->
     let ms := fst (outliers nSigmaCut l) in
     let fs := snd (outliers nSigmaCut l) in
     (ms <> [] \/ fs <> []) /\
     snd (found nSigmaCut l) = (length ms + length fs)%nat /\
     NoDup ms /\ NoDup fs /\
     (forall m, m ∈ ms -> valid (getMeasuredStar (associations (solved l)) m) = true) /\
     (forall f, f ∈ fs -> is_Some (refStar (getFittedStar (associations (solved l)) f))) /\
     links (associations (solved l)) = links (associations (fit l)) /\
     removed_from (associations (solved l)) (associations (pruned nSigmaCut l)) ms fs /\
     ((exists l', iteration nSigmaCut doRankUpdate l = Again l' /\
                  associations (fit l') = associations (pruned nSigmaCut l)) \/
      (exists F' lg, iteration nSigmaCut doRankUpdate l = Return Failed F' lg /\
                     associations F' = associations (pruned nSigmaCut l)))) /\
  (forall l0 k removed l,
     minimize_init whatToFit F = Again l0 -> reach l0 k removed l ->
     (removed + removable (associations (fit l)) = removable (associations F))%nat) /\
  (forall fuel r F' lg,
     minimize fuel whatToFit nSigmaCut doRankUpdate F = Some (r, F', lg) ->
     (minimize_init whatToFit F = Return r F' lg /\ r = Failed) \/
     exists l0 k removed l,
       minimize_init whatToFit F = Again l0 /\ reach l0 k removed l /\ (k < fuel)%nat /\
       iteration nSigmaCut doRankUpdate l = Return r F' lg /\
       ((F' = solved l /\ r <> Failed) \/
        (r = Failed /\ associations F' = associations (pruned nSigmaCut l)))) /\
  (forall l0 k removed l r F' lg fuel,
     minimize_init whatToFit F = Again l0 -> reach l0 k removed l -> (k < fuel)%nat ->
     iteration nSigmaCut doRankUpdate l = Return r F' lg ->
     minimize fuel whatToFit nSigmaCut doRankUpdate F = Some (r, F', lg)).
Proof.
  split; [|split; [|split; [|split; [|split; [|split; [|split]]]]]]; cycle 4.
  4:{ intros l0 k removed l r F' lg fuel H0 Hr Hk Hit. unfold minimize. rewrite H0.
      replace fuel with (k + S (fuel - k - 1))%nat by lia.
      rewrite (minimize_loop_reaches nSigmaCut doRankUpdate l0 l k removed Hr). simpl.
      by rewrite Hit. }
  3:{ intros fuel r F' lg Hrun. unfold minimize in Hrun.
      destruct (minimize_init whatToFit F) as [r' F'' lg'|l0] eqn:H0.
      { left. inversion Hrun; subst. split; [done|].
        by apply minimize_init_return in H0 as [-> _]. }
      right.
      destruct (minimize_loop_run l0 _ _ _ fuel 0%nat 0%nat l0 (reaches_start _ _ _) Hrun)
        as (k & removed & l & Hr & Hk & Hit).
      exists l0, k, removed, l. split; [done|]. split; [done|]. split; [lia|].
      split; [done|].
      destruct (iteration_return_state nSigmaCut _ l r F' lg Hit) as [?|(? & _ & _ & ?)];
        [by left|by right]. }
  { intros l Hup Hcut Hn ms fs.
    destruct (outliers_spec nSigmaCut l) as (Hlen & Hn1 & Hn2 & Hv & Hr & Hrem).
    fold ms fs in Hlen, Hn1, Hn2, Hv, Hr, Hrem.
    split.
    { destruct (pruned_spec nSigmaCut l) as (Hf & _).
      destruct ms as [|m ms']; [|by left]. destruct fs as [|f fs']; [|by right].
      exfalso. apply Hn. rewrite Hf, Hlen. done. }
    split; [done|]. split; [done|]. split; [done|]. split; [done|]. split; [done|].
    split; [apply offsetParams_links|]. split; [done|].
    by apply iteration_prunes. }
  { intros l0 k removed l H0 Hr.
    destruct (minimize_init_again whatToFit F l0 H0) as (_ & _ & Hl & _).
    destruct (reaches_removable l0 l k removed Hr) as (Hsum & _).
    by rewrite <- (links_removable _ _ Hl). }
  - intros fuel r F' lg Hrun f Hf. unfold minimize in Hrun.
    destruct (minimize_init whatToFit F) as [r' F'' lg'|l0] eqn:H0.
    { inversion Hrun; subst. apply minimize_init_return in H0 as [_ Hl].
      by apply (links_count_ok _ _ f (eq_sym Hl)). }
    destruct (minimize_init_again whatToFit F l0 H0) as (_ & _ & Hl & _).
    apply (links_count_ok _ _ f (eq_sym Hl)) in Hf.
    destruct (minimize_loop_run l0 _ _ _ fuel 0%nat 0%nat l0 (reaches_start _ _ _) Hrun)
      as (k & removed & l & Hr & Hk & Hit).
    destruct (reaches_removable l0 l k removed Hr) as (_ & _ & Hc).
    specialize (Hc f Hf). destruct (pruned_spec nSigmaCut l) as (_ & _ & Hp).
    destruct (Hp f Hc) as [Hs Hpr].
    apply iteration_return in Hit as [(_ & _ & -> & _)|(_ & _ & [Ha|Ha])]; [done|..];
      unfold count_ok in *; unfold getFittedStar, children in *; by rewrite Ha.
  - unfold minimize.
    destruct (minimize_init whatToFit F) as [r' F'' lg'|l0] eqn:H0; [done|].
    destruct (minimize_init_again whatToFit F l0 H0) as (_ & _ & Hl & _).
    apply minimize_loop_terminates. by rewrite (links_removable _ _ Hl).
  - intros a m Hv. split; [|split].
    + rewrite getMeasuredStar_removeMeasOutlier. by rewrite decide_True.
    + intros m' Hne. rewrite getMeasuredStar_removeMeasOutlier. by rewrite decide_False.
    + intros f Hlt. rewrite getFittedStar_removeMeasOutlier.
      destruct (decide (fittedStar (getMeasuredStar a m) = f)) as [He|Hne].
      * by rewrite decide_True.
      * rewrite decide_False; [done|]. by intros [? _].
  - intros a f. split; [done|]. intros f'. apply getFittedStar_removeRefOutlier.
Qed.

End Run.

(** The concrete fits respect the validity flags and the links. *)
Lemma toy_Lawful : @Lawful unit toy_Virtual.
Proof. by split. Qed.

Lemma rising_Lawful : @Lawful unit rising_Virtual.
Proof. by split. Qed.

Lemma minimize_chi2_increased_witness :
  Z.of_nat (length (measuredStars (associations toy_fit)) +
            length (fittedStarList (associations toy_fit))) < 2 ^ 32 /\
  exists l0 k removed l,
    @minimize_init toy_External unit rising_Virtual "Model" toy_fit = Again l0 /\
    @reaches toy_External unit rising_Virtual 1 true l0 k removed l /\ (k < 5)%nat /\
    (oldChi2 l < stat_chi2 (@computeChi2 unit rising_Virtual (@solved toy_External unit rising_Virtual l)))%Q /\
    (0 < removed)%nat /\ (0 < k)%nat.
Proof.
  assert (Z.of_nat (length (measuredStars (associations toy_fit)) +
                    length (fittedStarList (associations toy_fit))) < 2 ^ 32) as Hsize
    by (simpl; lia).
  split; [exact Hsize|].
  destruct (proj1 (@minimize_chi2_increased toy_External unit rising_Virtual rising_Lawful
                     1 true "Model" toy_fit Hsize) 5%nat
              (mk (mkAssociations [0%nat]
                     [mkMeasuredStar 0 0 true; mkMeasuredStar 0 0 false]
                     [mkFittedStar 1 (Some 0%nat) 0] [0%nat]) 1 0 2 tt)
              [Warn_Chi2WentUp])
    as (l0 & k & removed & l & H1 & H2 & H3 & H4 & H5 & H6 & _).
  { by vm_compute. }
  by exists l0, k, removed, l.
Defined.

Lemma graded_Lawful : @Lawful unit graded_Virtual.
Proof. by split. Qed.

Lemma minimize_measurement_count_witness :
  count_ok toy_associations 0 /\
  is_Some (@minimize toy_External unit toy_Virtual 4 "Model" 3 true toy_fit) /\
  (forall fuel r F' lg,
     @minimize toy_External unit toy_Virtual fuel "Model" 3 true toy_fit = Some (r, F', lg) ->
     count_ok (associations F') 0) /\
  @minimize_init toy_External unit graded_Virtual "Model" toy_fit = Again graded_loop /\
  @outliers toy_External unit graded_Virtual 1 graded_loop = ([1%nat], []) /\
  removed_from (associations (@solved toy_External unit graded_Virtual graded_loop))
    (associations (@pruned toy_External unit graded_Virtual 1 graded_loop))
    (fst (@outliers toy_External unit graded_Virtual 1 graded_loop))
    (snd (@outliers toy_External unit graded_Virtual 1 graded_loop)) /\
  associations (@pruned toy_External unit graded_Virtual 1 graded_loop) =
    mkAssociations [0%nat] [mkMeasuredStar 0 0 true; mkMeasuredStar 0 0 false]
      [mkFittedStar 1 (Some 0%nat) 0] [0%nat].
Proof.
  assert (count_ok toy_associations 0) as Hc by by vm_compute.
  split; [exact Hc|].
  destruct (@minimize_measurement_count toy_External unit toy_Virtual toy_Lawful 3 true
              "Model" toy_fit) as (H1 & H2 & _).
  split; [exact H2|].
  split; [intros fuel r F' lg Hrun; exact (H1 fuel r F' lg Hrun 0%nat Hc)|].
  split; [by vm_compute|]. split; [by vm_compute|].
  destruct (@minimize_measurement_count toy_External unit graded_Virtual graded_Lawful 1 true
              "Model" toy_fit) as (_ & _ & _ & _ & H5 & _).
  specialize (H5 graded_loop ltac:(by vm_compute) ltac:(by vm_compute) ltac:(by vm_compute)).
  cbv zeta in H5. destruct H5 as (_ & _ & _ & _ & _ & _ & _ & Hrem & _).
  split; [exact Hrem|]. by vm_compute.
Defined.

End FitterProofs.
